(** * CUBE compiler: storage allocator, source-map lookup and URL encoding

    A shallow embedding of the parts of the CUBE tool chain that carry
    the storage policy and the look-up contracts of its specification:

    - [core/cube/varmapper.ts]: [mapVariables] and [allocateFields];
    - [ui/detail/NodeDetailPanel.tsx]: [findCubeLocation];
    - [ui/urlSource.ts]: [toBase64url] and [fromBase64url];
    - the port-wiring validation of the emitter, whose code is not among
      the sources, after the specification.

    JavaScript numbers that hold addresses and counts are integers
    here ([Z]).  The code never wraps them; its additions are exact up
    to 2^53, and theorems about sums that could go beyond carry that
    bound as a hypothesis. *)

From Stdlib Require Import ZArith Lia List Bool String Ascii Sorted.
From Stdlib.Strings Require Import Byte.
From stdpp Require Import gmap strings list fin_maps sorting pretty.

Local Open Scope Z_scope.

(** ** varmapper.ts *)

Module VarMapper.

(** [VarLocation = { RAM: 'ram', STACK: 'stack' }]. *)
Inductive VarLocation : Set :=
  | RAM
  | STACK.

(** [interface VarMapping { location; ramAddr? }]: the address is an
    optional field. *)
Record VarMapping : Set := mkVarMapping {
  location : VarLocation;
  ramAddr : option Z
}.

(** [interface VariableMap { vars; nextRamAddr; nextFieldAddr }]. *)
Record VariableMap : Type := mkVariableMap {
  vars : gmap string VarMapping;
  nextRamAddr : Z;
  nextFieldAddr : Z
}.

(** The two [continue] guards of the loop of [mapVariables]:
    [name.startsWith('_')] and [name === 'coord']. *)
Definition skipped (name : string) : bool :=
  String.prefix "_" name || String.eqb name "coord".

(** One iteration of [for (const name of variableNames)]: the loop state
    is the map under construction and the local [nextRamAddr]. *)
Definition mapVariables_step (st : gmap string VarMapping * Z) (name : string)
  : gmap string VarMapping * Z :=
  if String.prefix "_" name then st
  else if String.eqb name "coord" then st
  else (<[name := mkVarMapping RAM (Some (snd st))]> (fst st), snd st - 1).

(** A [Set<string>] is iterated in insertion order and holds no name
    twice: it is the list of its elements in that order, and the theorems
    that depend on the absence of repetitions assume [NoDup]. *)
Definition mapVariables (variableNames : list string) : VariableMap :=
  let st := fold_left mapVariables_step variableNames (∅, 0x3F) in
  mkVariableMap (fst st) (snd st) 0x20.

(** [Number.MAX_SAFE_INTEGER].  A JavaScript number is a double: the sum
    of two non-negative integers is the exact sum as long as it does not
    exceed this value, and is rounded beyond 2^53. *)
Definition MAX_SAFE_INTEGER : Z := 2 ^ 53 - 1.

(** [allocateFields] reads and then advances the [nextFieldAddr] field of
    the map it is passed; the mutated object is returned next to the
    result.  [nextFieldAddr += count] is written with the exact sum: it
    is the sum the code computes while counter and count are
    non-negative integers and the sum is at most [MAX_SAFE_INTEGER], and
    what is stated about sums of counts below assumes that range. *)
Definition allocateFields (varMap : VariableMap) (count : Z) : Z * VariableMap :=
  let base := nextFieldAddr varMap in
  (base, mkVariableMap (vars varMap) (nextRamAddr varMap)
                       (nextFieldAddr varMap + count)).

(** A sequence of calls of [allocateFields] on the same object, one per
    field-bearing construction, collecting the returned bases. *)
Fixpoint allocateAll (varMap : VariableMap) (counts : list Z)
  : list Z * VariableMap :=
  match counts with
  | [] => ([], varMap)
  | c :: cs =>
      let (base, vm1) := allocateFields varMap c in
      let (bases, vm2) := allocateAll vm1 cs in
      (base :: bases, vm2)
  end.

(** The number of cells reserved by calls with the given counts. *)
Definition total (counts : list Z) : Z := fold_right Z.add 0 counts.

(** The block of [count] cells at [base] contains the cell of a variable
    of the map. *)
Definition overlaps (varMap : VariableMap) (base count : Z) : Prop :=
  exists name vmap a,
    vars varMap !! name = Some vmap /\ ramAddr vmap = Some a /\
    base <= a < base + count.

(** The names of the input that get a RAM cell, in iteration order. *)
Definition allocated (variableNames : list string) : list string :=
  List.filter (fun n => negb (skipped n)) variableNames.

End VarMapper.

(** ** NodeDetailPanel.tsx: source-map lookup *)

Module SourceMap.

(** Modelled from the spec: the declaration of [SourceMapEntry] lives in
    [core/cube/emitter.ts], which is not among the sources; the external
    interface gives its shape as [{addr, label, line}], and
    [NodeDetailPanel.tsx] reads exactly these three fields. *)
Record SourceMapEntry : Set := mkEntry {
  addr : Z;
  label : string;
  line : Z
}.

(** The body of [for (const entry of sourceMap)] in [findCubeLocation];
    [best] is [null] ([None]) or an entry. *)
Definition findCubeLocation_step (pc : Z) (best : option SourceMapEntry)
    (entry : SourceMapEntry) : option SourceMapEntry :=
  if addr entry <=? pc then
    match best with
    | None => Some entry
    | Some b => if addr entry >? addr b then Some entry else best
    end
  else best.

Definition findCubeLocation (sourceMap : list SourceMapEntry) (pc : Z)
  : option SourceMapEntry :=
  fold_left (findCubeLocation_step pc) sourceMap None.

(** Entries sorted by address; equal addresses may repeat. *)
Definition addr_sorted (sourceMap : list SourceMapEntry) : Prop :=
  StronglySorted (fun a b => addr a <= addr b) sourceMap.

(** [b] is a floor of [pc] in [sourceMap]: an entry at or below [pc] that
    no other entry at or below [pc] exceeds. *)
Definition is_floor (sourceMap : list SourceMapEntry) (pc : Z)
    (b : SourceMapEntry) : Prop :=
  In b sourceMap /\ addr b <= pc /\
  forall e, In e sourceMap -> addr e <= pc -> addr e <= addr b.

End SourceMap.

(** ** urlSource.ts: base64url *)

Module UrlSource.

(** A JavaScript string is the list of its UTF-16 code units; a
    [Uint8Array] is a list of bytes. *)
Definition jsstring : Set := list Z.

(** [String.fromCharCode(bytes[i])]. *)
Definition fromCharCode (b : byte) : Z := Z.of_N (Byte.to_N b).

(** [bytes[i] = c]: a store into a [Uint8Array] keeps the low eight bits. *)
Definition toUint8 (c : Z) : byte :=
  match Byte.of_N (Z.to_N (c mod 256)) with
  | Some b => b
  | None => x00
  end.

(** *** The platform functions [btoa] and [atob]

    They are not code of the repository: they follow the base64 alphabet
    of RFC 4648 section 4 and the forgiving-base64 encode and decode of
    the WHATWG Infra standard, which is what every browser runs. *)

(** The character of a six-bit value: [A-Z], [a-z], [0-9], [+], [/]. *)
Definition b64_char (s : Z) : Z :=
  if s <? 26 then 65 + s
  else if s <? 52 then 97 + (s - 26)
  else if s <? 62 then 48 + (s - 52)
  else if s =? 62 then 43
  else 47.

(** The six-bit value of a character, if it is in the alphabet. *)
Definition b64_index (c : Z) : option Z :=
  if (65 <=? c) && (c <=? 90) then Some (c - 65)
  else if (97 <=? c) && (c <=? 122) then Some (c - 97 + 26)
  else if (48 <=? c) && (c <=? 57) then Some (c - 48 + 52)
  else if c =? 43 then Some 62
  else if c =? 47 then Some 63
  else None.

(** The padding character [=]. *)
Definition pad : Z := 61.

(** Three bytes give four characters; a last group of one or two bytes is
    completed with zero bits and padded with [=]. *)
Fixpoint b64_encode (data : list Z) : jsstring :=
  match data with
  | [] => []
  | [a] => [b64_char (a / 4); b64_char (a mod 4 * 16); pad; pad]
  | [a; b] =>
      [b64_char (a / 4); b64_char (a mod 4 * 16 + b / 16);
       b64_char (b mod 16 * 4); pad]
  | a :: b :: c :: rest =>
      b64_char (a / 4) :: b64_char (a mod 4 * 16 + b / 16)
      :: b64_char (b mod 16 * 4 + c / 64) :: b64_char (c mod 64)
      :: b64_encode rest
  end.

(** The characters of [b64_encode] before the padding, and the number
    of [=] that follow them; [b64_encode_split] below relates the three. *)
Fixpoint b64_body (data : list Z) : jsstring :=
  match data with
  | [] => []
  | [a] => [b64_char (a / 4); b64_char (a mod 4 * 16)]
  | [a; b] =>
      [b64_char (a / 4); b64_char (a mod 4 * 16 + b / 16);
       b64_char (b mod 16 * 4)]
  | a :: b :: c :: rest =>
      b64_char (a / 4) :: b64_char (a mod 4 * 16 + b / 16)
      :: b64_char (b mod 16 * 4 + c / 64) :: b64_char (c mod 64)
      :: b64_body rest
  end.

Fixpoint pad_count (data : list Z) : nat :=
  match data with
  | [] => 0
  | [_] => 2
  | [_; _] => 1
  | _ :: _ :: _ :: rest => pad_count rest
  end.

(** A binary string: every code unit is a byte value. *)
Definition octets (data : list Z) : Prop := Forall (fun c => 0 <= c <= 255) data.

(** The characters of the alphabet. *)
Definition b64_code (c : Z) : Prop :=
  65 <= c <= 90 \/ 97 <= c <= 122 \/ 48 <= c <= 57 \/ c = 43 \/ c = 47.

(** [btoa] throws [InvalidCharacterError] ([None]) when a code unit is
    above 0xFF. *)
Definition btoa (data : jsstring) : option jsstring :=
  if forallb (fun c => (0 <=? c) && (c <=? 255)) data
  then Some (b64_encode data)
  else None.

(** Four six-bit values give three bytes; of a last group of two or three
    values the incomplete byte is dropped. *)
Fixpoint b64_decode (sextets : list Z) : list Z :=
  match sextets with
  | s0 :: s1 :: s2 :: s3 :: rest =>
      (s0 * 4 + s1 / 16) :: (s1 mod 16 * 16 + s2 / 4)
      :: (s2 mod 4 * 64 + s3) :: b64_decode rest
  | [s0; s1; s2] => [s0 * 4 + s1 / 16; s1 mod 16 * 16 + s2 / 4]
  | [s0; s1] => [s0 * 4 + s1 / 16]
  | _ => []
  end.

(** Tab, line feed, form feed, carriage return and space. *)
Definition is_ascii_whitespace (c : Z) : bool :=
  (c =? 9) || (c =? 10) || (c =? 12) || (c =? 13) || (c =? 32).

(** When the length is a multiple of four, one or two [=] at the end are
    removed. *)
Definition remove_padding (data : jsstring) : jsstring :=
  if Z.of_nat (length data) mod 4 =? 0 then
    match rev data with
    | c1 :: c2 :: r =>
        if c1 =? pad then (if c2 =? pad then rev r else rev (c2 :: r))
        else data
    | [c1] => if c1 =? pad then [] else data
    | [] => data
    end
  else data.

(** The values of all characters, or [None] if one is outside the
    alphabet. *)
Fixpoint b64_indices (data : jsstring) : option (list Z) :=
  match data with
  | [] => Some []
  | c :: rest =>
      match b64_index c, b64_indices rest with
      | Some s, Some ss => Some (s :: ss)
      | _, _ => None
      end
  end.

(** [atob] throws ([None]) on a length of 1 modulo 4 and on a character
    outside the alphabet. *)
Definition atob (data : jsstring) : option jsstring :=
  let data := List.filter (fun c => negb (is_ascii_whitespace c)) data in
  let data := remove_padding data in
  if Z.of_nat (length data) mod 4 =? 1 then None
  else match b64_indices data with
       | Some sextets => Some (b64_decode sextets)
       | None => None
       end.

(** *** The functions of urlSource.ts *)

(** [s.replace(/x/g, 'y')] for one-character [x] and [y]. *)
Definition replace_all (x y : Z) (s : jsstring) : jsstring :=
  List.map (fun c => if c =? x then y else c) s.

(** [s.replace(/=+$/, '')]: the run of [=] at the end of the string is
    removed. *)
Fixpoint strip_trailing_pad (s : jsstring) : jsstring :=
  match s with
  | [] => []
  | c :: rest =>
      match strip_trailing_pad rest with
      | [] => if c =? pad then [] else [c]
      | t => c :: t
      end
  end.

(** [toBase64url]: the loop builds [binary] one character per byte; an
    exception of [btoa] propagates. *)
Definition toBase64url (bytes : list byte) : option jsstring :=
  let binary := List.map fromCharCode bytes in
  match btoa binary with
  | Some b64 =>
      Some (strip_trailing_pad (replace_all 47 95 (replace_all 43 45 b64)))
  | None => None
  end.

(** [while (b64.length % 4 !== 0) b64 += '=']: [fuel] bounds the number
    of iterations. *)
Fixpoint add_padding_loop (fuel : nat) (b64 : jsstring) : jsstring :=
  match fuel with
  | O => b64
  | S fuel' =>
      if negb (Z.of_nat (length b64) mod 4 =? 0)
      then add_padding_loop fuel' (b64 ++ [pad])
      else b64
  end.

(** The loop runs at most three times ([add_padding_exits] below). *)
Definition add_padding (b64 : jsstring) : jsstring := add_padding_loop 3 b64.

(** [fromBase64url]; an exception of [atob] propagates. *)
Definition fromBase64url (str : jsstring) : option (list byte) :=
  let b64 := replace_all 95 47 (replace_all 45 43 str) in
  let b64 := add_padding b64 in
  match atob b64 with
  | Some binary => Some (List.map toUint8 binary)
  | None => None
  end.

End UrlSource.

(** ** Emitter: port wiring

    The emitter ([core/cube/emitter.ts]) is not among the sources; its
    wiring validation is written after sections 4.5, 7 and 8 of the
    specification. *)

Module Wiring.

(** Modelled from the spec: the four directional neighbour accesses
    ([left], [right], [up], [down]) of the missing emitter. *)
Inductive Direction : Set := Left | Right | Up | Down.

(** Modelled from the spec: the port operations the missing emitter
    places in a node's stream: explicit [send] and [recv] with a numeric
    port address, and directional neighbour write and read. *)
Inductive PortOp : Set :=
  | Send (port : Z)
  | Recv (port : Z)
  | DirWrite (d : Direction)
  | DirRead (d : Direction).

(** Modelled from the spec: the emission error of the missing emitter
    for an unmatched port operation; it names the node and the
    operation. *)
Inductive EmissionError : Set :=
  | UnmatchedPort (coord : Z) (op : PortOp).

(** Modelled from the spec: the output of the missing emitter, reduced
    to what wiring looks at: per node coordinate, the port operations of
    its instruction stream in address order. *)
Definition Output : Set := list (Z * list PortOp).

Section Validation.

(** Which directional primitives stand for which port address is left
    open by the specification (section 9); the validation is stated for
    any such relation. *)
Variable dirMatches : Z -> Direction -> bool.

(** Modelled from the spec: what counts, in the missing emitter, as the
    receiving side of port [P]: a [recv] on [P] or a matching directional
    read. *)
Definition receives (P : Z) (op : PortOp) : bool :=
  match op with
  | Recv Q => P =? Q
  | DirRead d => dirMatches P d
  | _ => false
  end.

(** Modelled from the spec: the sending side of port [P] in the missing
    emitter: a [send] on [P] or a matching directional write. *)
Definition sends (P : Z) (op : PortOp) : bool :=
  match op with
  | Send Q => P =? Q
  | DirWrite d => dirMatches P d
  | _ => false
  end.

(** Modelled from the spec: the check of the missing emitter that a
    [send] has a receiver, and a [recv] a sender, in the output of some
    node. *)
Definition has_counterpart (out : Output) (op : PortOp) : bool :=
  match op with
  | Send P => existsb (fun n => existsb (receives P) (snd n)) out
  | Recv P => existsb (fun n => existsb (sends P) (snd n)) out
  | _ => true
  end.

(** Modelled from the spec: the errors the missing emitter collects, one
    per unmatched operation, in one pass over all nodes. *)
Definition wiringErrors (out : Output) : list EmissionError :=
  flat_map (fun n =>
    List.map (UnmatchedPort (fst n))
      (List.filter (fun op => negb (has_counterpart out op)) (snd n))) out.

(** Modelled from the spec: the final step of the missing emitter.  An
    unmatched port operation is a fatal wiring error: emission fails
    with the errors collected, and succeeds with the output when there
    are none. *)
Definition finalizeWiring (out : Output) : list EmissionError + Output :=
  match wiringErrors out with
  | [] => inr out
  | errs => inl errs
  end.

(** Modelled from the spec: the output of the program from which every
    operation that receives on [P] is removed. *)
Definition removeReceivers (P : Z) (out : Output) : Output :=
  List.map (fun n =>
    (fst n, List.filter (fun op => negb (receives P op)) (snd n))) out.

End Validation.

End Wiring.

(** ** urlSource.ts: the exported functions *)

Module UrlSharing.
Import UrlSource.

(** The characters of the URL form of the alphabet: letters, digits,
    [-] and [_]. *)
Definition url_code (c : Z) : Prop :=
  65 <= c <= 90 \/ 97 <= c <= 122 \/ 48 <= c <= 57 \/ c = 45 \/ c = 95.

(** The loop [while (true) { read(); if (done) break; chunks.push(value) }]
    followed by [result.set(chunk, offset)] for every chunk: the chunks
    are laid one after the other. *)
Definition assemble (chunks : list (list byte)) : list byte :=
  fold_left (fun result chunk => result ++ chunk) chunks [].

Section Streams.

(** The platform objects the functions use are parameters:
    [new TextEncoder().encode], [new TextDecoder().decode], and the two
    ['deflate-raw'] streams, each taken as the function from the bytes
    written to the chunks read; a decompression stream that errors makes
    [reader.read()] throw ([None]). *)
Variable encode : jsstring -> list byte.
Variable decode : list byte -> jsstring.
Variable deflate : list byte -> list (list byte).
Variable inflate : list byte -> option (list (list byte)).

(** [encodeSource]; [None] is an exception of [toBase64url]. *)
Definition encodeSource (source : jsstring) : option jsstring :=
  let input := encode source in
  let result := assemble (deflate input) in
  toBase64url result.

(** [decodeSource]: the body of the [try]; every exception ends in the
    [catch], which returns [null] ([None]). *)
Definition decodeSource (encoded : jsstring) : option jsstring :=
  match fromBase64url encoded with
  | None => None
  | Some bytes =>
      match inflate bytes with
      | None => None
      | Some chunks => Some (decode (assemble chunks))
      end
  end.

(** [readUrlSource], from the value of [url.searchParams.get('src')]:
    [null] ([None]) when the parameter is missing; [!encoded] also holds
    for the empty string. *)
Definition readUrlSource (src : option jsstring) : option jsstring :=
  match src with
  | None => None
  | Some [] => None
  | Some encoded => decodeSource encoded
  end.

End Streams.

End UrlSharing.

(** ** layoutEngine.ts: identifiers and scene-graph filtering *)

Module LayoutEngine.

(** [nextId]: the module-level [idCounter] is threaded as state; the
    template literal prints the counter in decimal. *)
Definition nextId (prefix : string) (idCounter : N) : string * N :=
  ((prefix +:+ "_" +:+ pretty idCounter)%string, (idCounter + 1)%N).

(** Successive calls of [nextId], one per prefix, from a counter value. *)
Fixpoint nextIds (prefixes : list string) (idCounter : N) : list string * N :=
  match prefixes with
  | [] => ([], idCounter)
  | p :: ps =>
      let (i, c1) := nextId p idCounter in
      let (rest, c2) := nextIds ps c1 in
      (i :: rest, c2)
  end.

Inductive SceneNodeType : Set :=
  | definition | application | holder | literal | port | plane
  | constructor | type_definition.

Inductive Side : Set := left | right | front | back.

Section SceneGraph.

(** Coordinates, sizes and opacities are floating-point numbers; the
    functions below only subtract them, and the subtraction is a
    parameter. *)
Variable num : Type.
Variable sub : num -> num -> num.

Definition vec3 : Type := num * num * num.

Record PortInfo : Type := mkPortInfo {
  port_id : string;
  port_name : string;
  side : Side;
  offset : num;
  worldPos : vec3
}.

Record SceneNode : Type := mkSceneNode {
  id : string;
  type : SceneNodeType;
  label : string;
  position : vec3;
  size : vec3;
  color : string;
  transparent : bool;
  opacity : num;
  parentId : option string;
  ports : list PortInfo
}.

Record PipeInfo : Type := mkPipeInfo {
  pipe_id : string;
  from : vec3;
  to : vec3;
  pipe_color : string;
  fromNodeId : option string;
  toNodeId : option string
}.

Record SceneGraph : Type := mkSceneGraph {
  nodes : list SceneNode;
  pipes : list PipeInfo
}.

(** [x && ids.has(x)] for an optional string [x]: [undefined] and the
    empty string are falsy. *)
Definition has_truthy (ids : gset string) (x : option string) : bool :=
  match x with
  | None => false
  | Some EmptyString => false
  | Some i => bool_decide (i ∈ ids)
  end.

(** The body of [for (const node of nodes)] in [getDescendantIds]; the
    state is the set [ids] and the flag [added]. *)
Definition descend_step (st : gset string * bool) (node : SceneNode)
  : gset string * bool :=
  if has_truthy (fst st) (parentId node)
     && negb (bool_decide (id node ∈ fst st))
  then ({[id node]} ∪ fst st, true)
  else st.

(** One run of the body of [while (added)]: [added = false], then the
    loop over the nodes. *)
Definition descend_pass (nodes : list SceneNode) (ids : gset string)
  : gset string * bool :=
  fold_left descend_step nodes (ids, false).

(** [while (added) { ... }], entered with [added = true]; [fuel] bounds
    the number of passes. *)
Fixpoint descend_loop (fuel : nat) (nodes : list SceneNode) (ids : gset string)
  : gset string :=
  match fuel with
  | O => ids
  | S fuel' =>
      let st := descend_pass nodes ids in
      if snd st then descend_loop fuel' nodes (fst st) else fst st
  end.

(** [getDescendantIds]: one pass more than there are nodes is enough for
    the loop to end ([getDescendantIds_closure] below). *)
Definition getDescendantIds (nodes : list SceneNode) (rootId : string)
  : gset string :=
  descend_loop (S (length nodes)) nodes {[rootId]}.

Definition vec3_sub (v o : vec3) : vec3 :=
  (sub (fst (fst v)) (fst (fst o)), sub (snd (fst v)) (snd (fst o)),
   sub (snd v) (snd o)).

(** [{...n, position: ..., ports: ...}] of [filterSceneGraph]. *)
Definition recenter_node (o : vec3) (n : SceneNode) : SceneNode :=
  mkSceneNode (id n) (type n) (label n) (vec3_sub (position n) o) (size n)
    (color n) (transparent n) (opacity n) (parentId n)
    (List.map (fun p =>
       mkPortInfo (port_id p) (port_name p) (side p) (offset p)
         (vec3_sub (worldPos p) o)) (ports n)).

Definition recenter_pipe (o : vec3) (p : PipeInfo) : PipeInfo :=
  mkPipeInfo (pipe_id p) (vec3_sub (from p) o) (vec3_sub (to p) o)
    (pipe_color p) (fromNodeId p) (toNodeId p).

Definition filterSceneGraph (sg : SceneGraph) (focusId : string) : SceneGraph :=
  let nodeIds := getDescendantIds (nodes sg) focusId in
  let filteredNodes :=
    List.filter (fun n => bool_decide (id n ∈ nodeIds)) (nodes sg) in
  let filteredPipes :=
    List.filter (fun p => has_truthy nodeIds (fromNodeId p)
                          || has_truthy nodeIds (toNodeId p)) (pipes sg) in
  match List.find (fun n => String.eqb (id n) focusId) (nodes sg) with
  | Some focusNode =>
      let o := position focusNode in
      mkSceneGraph (List.map (recenter_node o) filteredNodes)
                   (List.map (recenter_pipe o) filteredPipes)
  | None => mkSceneGraph filteredNodes filteredPipes
  end.

(** The ids reachable from [rootId] by going from a parent to a node of
    the list that names it as its (non-empty) [parentId]. *)
Inductive descendant (nodes : list SceneNode) (rootId : string)
  : string -> Prop :=
  | descendant_root : descendant nodes rootId rootId
  | descendant_child node p :
      In node nodes -> parentId node = Some p -> p <> EmptyString ->
      descendant nodes rootId p ->
      descendant nodes rootId (id node).

End SceneGraph.

Arguments port_id {num} _.
Arguments port_name {num} _.
Arguments side {num} _.
Arguments offset {num} _.
Arguments worldPos {num} _.
Arguments id {num} _.
Arguments type {num} _.
Arguments label {num} _.
Arguments position {num} _.
Arguments size {num} _.
Arguments color {num} _.
Arguments transparent {num} _.
Arguments opacity {num} _.
Arguments parentId {num} _.
Arguments ports {num} _.
Arguments pipe_id {num} _.
Arguments from {num} _.
Arguments to {num} _.
Arguments pipe_color {num} _.
Arguments fromNodeId {num} _.
Arguments toNodeId {num} _.
Arguments nodes {num} _.
Arguments pipes {num} _.
Arguments descend_step {num} _ _.
Arguments descend_pass {num} _ _.
Arguments descend_loop {num} _ _ _.
Arguments getDescendantIds {num} _ _.
Arguments vec3_sub {num} _ _ _.
Arguments recenter_node {num} _ _ _.
Arguments recenter_pipe {num} _ _ _.
Arguments filterSceneGraph {num} _ _ _.
Arguments descendant {num} _ _ _.

End LayoutEngine.

(** ** The VGA display panel *)

Module VgaDisplay.

(** The operands of [>>], [&] and [|] are converted to signed 32-bit
    integers. *)
Definition toInt32 (v : Z) : Z := (v + 2 ^ 31) mod 2 ^ 32 - 2 ^ 31.

(** [x * 255 / 7 | 0] for a three-bit [x]: the quotient of two small
    integers, cut to an integer.  The floating-point quotient is within
    rounding of the exact one, which is an integer or at least 1/7 away
    from one, so cutting it gives the integer quotient. *)
Definition scale8 (x : Z) : Z := Z.lor (toInt32 (Z.quot (x * 255) 7)) 0.

(** The three channels [r], [g] and [b] of [dacToRgb]. *)
Definition dacChannels (value : Z) : Z * Z * Z :=
  let r := scale8 (Z.land (Z.shiftr (toInt32 value) 6) 0x7) in
  let g := scale8 (Z.land (Z.shiftr (toInt32 value) 3) 0x7) in
  let b := scale8 (Z.land (toInt32 value) 0x7) in
  (r, g, b).

(** [dacToRgb]: the template literal prints the channels in decimal. *)
Definition dacToRgb (value : Z) : string :=
  let '(r, g, b) := dacChannels value in
  ("rgb(" +:+ pretty r +:+ "," +:+ pretty g +:+ "," +:+ pretty b +:+ ")")%string.

(** [parseInt(...) || d]: [parseInt] gives [NaN] ([None]) or an integer;
    [NaN] and 0 are falsy. *)
Definition or_default (parsed : option Z) (d : Z) : Z :=
  match parsed with
  | None => d
  | Some 0 => d
  | Some n => n
  end.

(** The [onChange] handlers of the two text fields: what they pass to
    [setPixelWidth] and [setPixelScale]. *)
Definition onWidthChange (parsed : option Z) : Z :=
  Z.max 1 (or_default parsed 4).

Definition onScaleChange (parsed : option Z) : Z :=
  Z.max 1 (Z.min 32 (or_default parsed 12)).

(** [Math.ceil(a / b)] for a count [a] and a positive width [b]. *)
Definition ceil_div (a b : Z) : Z :=
  if a mod b =? 0 then a / b else a / b + 1.

(** The size of the canvas: [canvasWidth] and [canvasHeight]. *)
Definition canvasSize (totalPixels pixelWidth pixelScale : Z) : Z * Z :=
  let rows := Z.max 1 (ceil_div totalPixels pixelWidth) in
  (pixelWidth * pixelScale, rows * pixelScale).

(** The rectangle [fillRect(x, y, w, h)] of pixel [i] in the two drawing
    loops. *)
Definition pixelRect (i pixelWidth pixelScale : Z) : Z * Z * Z * Z :=
  let col := i mod pixelWidth in
  let row := i / pixelWidth in
  (col * pixelScale, row * pixelScale, pixelScale, pixelScale).

End VgaDisplay.

(** * Properties *)

(** Bounds and equations between bytes and six-bit groups: linear
    arithmetic once quotients and remainders are named. *)
Ltac sextet := Z.to_euclidean_division_equations; lia.

(** ** Storage allocation *)

Section MapVariables.
Import VarMapper.

Implicit Types (name : string) (m : gmap string VarMapping) (a : Z).

Lemma prefix_cons (c d : ascii) (s t : string) :
  String.prefix (String c s) (String d t) =
  if ascii_dec c d then String.prefix s t else false.
Proof. reflexivity. Qed.

Lemma skipped_spec name :
  skipped name = true <->
  (exists rest, name = String "_" rest) \/ name = "coord"%string.
Proof.
  unfold skipped. rewrite orb_true_iff, String.eqb_eq. split.
  - intros [H | H]; [left | by right].
    destruct name as [| c rest]; [discriminate |].
    rewrite prefix_cons in H.
    destruct (ascii_dec "_" c) as [<- | ?]; [by eexists | discriminate].
  - intros [[rest ->] | ->]; [left | by right].
    rewrite prefix_cons.
    destruct (ascii_dec "_" "_"); [by destruct rest | done].
Qed.

Lemma step_skipped st name :
  skipped name = true -> mapVariables_step st name = st.
Proof.
  unfold skipped, mapVariables_step.
  destruct (String.prefix "_" name); [done |].
  simpl. by intros ->.
Qed.

Lemma step_kept st name :
  skipped name = false ->
  mapVariables_step st name =
    (<[name := mkVarMapping RAM (Some (snd st))]> (fst st), snd st - 1).
Proof.
  unfold skipped, mapVariables_step.
  destruct (String.prefix "_" name); [done |].
  simpl. by intros ->.
Qed.

(** Skipped names leave the loop state alone, wherever they occur. *)
Lemma run_allocated names st :
  fold_left mapVariables_step names st =
  fold_left mapVariables_step (allocated names) st.
Proof.
  revert st. induction names as [| name names IH]; intros st; [done |].
  simpl. destruct (skipped name) eqn:E; simpl.
  - by rewrite step_skipped.
  - apply IH.
Qed.

Lemma allocated_kept names : Forall (fun n => skipped n = false) (allocated names).
Proof.
  apply Forall_forall. intros n Hn. apply list_elem_of_In, filter_In in Hn.
  destruct Hn as [_ Hn]. by apply negb_true_iff.
Qed.

Lemma allocated_NoDup names : NoDup names -> NoDup (allocated names).
Proof.
  induction 1 as [| n l Hn Hl IH]; simpl; [constructor |].
  destruct (skipped n); simpl; [done |].
  constructor; [| done].
  unfold allocated. rewrite list_elem_of_In, filter_In, <- list_elem_of_In. tauto.
Qed.

Lemma run_counter l m a :
  Forall (fun n => skipped n = false) l ->
  snd (fold_left mapVariables_step l (m, a)) = a - Z.of_nat (length l).
Proof.
  revert m a. induction l as [| name l IH]; intros m a Hl; simpl; [lia |].
  inversion Hl; subst. rewrite step_kept by done. simpl.
  rewrite IH by done. lia.
Qed.

Lemma run_other l m a name :
  name ∉ l ->
  fst (fold_left mapVariables_step l (m, a)) !! name = m !! name.
Proof.
  revert m a. induction l as [| n l IH]; intros m a Hn; simpl; [done |].
  apply not_elem_of_cons in Hn as [Hne Hn].
  destruct (skipped n) eqn:E.
  - rewrite step_skipped by done. by apply IH.
  - rewrite step_kept by done. simpl. rewrite IH by done.
    by rewrite lookup_insert_ne.
Qed.

Lemma run_lookup l m a (i : nat) name :
  Forall (fun n => skipped n = false) l -> NoDup l ->
  l !! i = Some name ->
  fst (fold_left mapVariables_step l (m, a)) !! name =
    Some (mkVarMapping RAM (Some (a - Z.of_nat i))).
Proof.
  revert m a i. induction l as [| n l IH]; intros m a i Hl Hnd Hi; [done |].
  inversion Hl; subst. apply NoDup_cons in Hnd as [Hn Hnd].
  simpl. rewrite step_kept by done. simpl.
  destruct i as [| i]; simpl in Hi.
  - injection Hi as ->. rewrite run_other by done.
    rewrite lookup_insert_eq. do 3 f_equal. lia.
  - rewrite (IH _ _ i) by done. do 3 f_equal. lia.
Qed.

Example mapVariables_sample :
  let vm := mapVariables ["x"; "_t"; "coord"; "y"]%string in
  vars vm !! "x"%string = Some (mkVarMapping RAM (Some 0x3F)) /\
  vars vm !! "y"%string = Some (mkVarMapping RAM (Some 0x3E)) /\
  vars vm !! "_t"%string = None /\
  vars vm !! "coord"%string = None /\
  nextRamAddr vm = 0x3D /\ nextFieldAddr vm = 0x20.
Proof. vm_compute. auto 10. Qed.

Lemma mapVariables_lookup names (i : nat) name :
  NoDup names -> allocated names !! i = Some name ->
  vars (mapVariables names) !! name =
    Some (mkVarMapping RAM (Some (0x3F - Z.of_nat i))).
Proof.
  intros Hnd Hi. unfold mapVariables. cbn [vars].
  rewrite run_allocated.
  by apply run_lookup; [apply allocated_kept | apply allocated_NoDup |].
Qed.

Lemma mapVariables_absent names name :
  name ∉ allocated names -> vars (mapVariables names) !! name = None.
Proof.
  intros Hn. unfold mapVariables. cbn [vars].
  rewrite run_allocated, run_other by done. apply lookup_empty.
Qed.

Lemma mapVariables_nextRamAddr names :
  nextRamAddr (mapVariables names) = 0x3F - Z.of_nat (length (allocated names)).
Proof.
  unfold mapVariables. cbn [nextRamAddr].
  rewrite run_allocated. apply run_counter, allocated_kept.
Qed.

(** Every entry of the map comes from a position of the allocated list. *)
Lemma mapVariables_entry names name (vmap : VarMapping) :
  NoDup names ->
  vars (mapVariables names) !! name = Some vmap ->
  exists i : nat, allocated names !! i = Some name /\
    vmap = mkVarMapping RAM (Some (0x3F - Z.of_nat i)).
Proof.
  intros Hnd Hl.
  destruct (decide (name ∈ allocated names)) as [Hin | Hout].
  - apply list_elem_of_lookup in Hin as [i Hi]. exists i. split; [done |].
    rewrite (mapVariables_lookup _ i) in Hl by done. by injection Hl.
  - by rewrite mapVariables_absent in Hl.
Qed.

(** C1. For a set of variable names, the names that are not skipped get
    the addresses 0x3F, 0x3E, ... in iteration order: the i-th allocated
    name is mapped to 0x3F - i and nothing else is in the map, the
    counter ends at 0x3F - N, and two different names never share an
    address. *)
Theorem mapVariables_addresses (variableNames : list string) :
  NoDup variableNames ->
  let vm := mapVariables variableNames in
  let live := allocated variableNames in
  (forall name (vmap : VarMapping),
     vars vm !! name = Some vmap <->
     exists i : nat, live !! i = Some name /\
       vmap = mkVarMapping RAM (Some (0x3F - Z.of_nat i))) /\
  nextRamAddr vm = 0x3F - Z.of_nat (length live) /\
  (forall n1 n2 (m1 m2 : VarMapping),
     n1 <> n2 -> vars vm !! n1 = Some m1 -> vars vm !! n2 = Some m2 ->
     ramAddr m1 <> ramAddr m2).
Proof.
  intros Hnd vm live. split; [| split].
  - intros name vmap. split.
    + by apply mapVariables_entry.
    + intros (i & Hi & ->). by apply mapVariables_lookup.
  - apply mapVariables_nextRamAddr.
  - intros n1 n2 m1 m2 Hne H1 H2.
    apply mapVariables_entry in H1 as (i & Hi & ->); [| done].
    apply mapVariables_entry in H2 as (j & Hj & ->); [| done].
    simpl. intros Heq. apply Hne.
    assert (i = j) as -> by (injection Heq; lia).
    unfold live in *. congruence.
Qed.

Lemma mapVariables_addresses_witness :
  let vm := mapVariables ["x"; "_t"; "coord"; "y"; "z"]%string in
  vars vm !! "z"%string = Some (mkVarMapping RAM (Some 0x3D)) /\
  nextRamAddr vm = 0x3C.
Proof.
  assert (NoDup ["x"; "_t"; "coord"; "y"; "z"]%string) as Hnd
    by (apply (bool_decide_unpack _); vm_compute; exact I).
  destruct (mapVariables_addresses _ Hnd) as (Hmap & Hnext & _).
  split.
  - apply Hmap. exists 2%nat. split; reflexivity.
  - exact Hnext.
Defined.

(** C3. A name that begins with ['_'], or the name ['coord'], is absent
    from the map that [mapVariables] returns, and an occurrence of it in
    the input changes neither the addresses of the other names nor the
    counter: the result is that of the input without it. *)
Theorem mapVariables_skips (variableNames : list string) name :
  (exists rest, name = String "_" rest) \/ name = "coord"%string ->
  vars (mapVariables variableNames) !! name = None /\
  nextRamAddr (mapVariables variableNames)
    = 0x3F - Z.of_nat (length (allocated variableNames)) /\
  forall before after,
    variableNames = before ++ name :: after ->
    mapVariables variableNames = mapVariables (before ++ after).
Proof.
  intros Hskip. apply skipped_spec in Hskip. split; [| split].
  - apply mapVariables_absent. unfold allocated.
    rewrite list_elem_of_In, filter_In. intros [_ H].
    rewrite Hskip in H. discriminate.
  - apply mapVariables_nextRamAddr.
  - intros before after ->. unfold mapVariables.
    rewrite !fold_left_app. simpl. by rewrite step_skipped.
Qed.

Lemma mapVariables_skips_witness :
  vars (mapVariables ["x"; "_t"; "y"]%string) !! "_t"%string = None /\
  mapVariables ["x"; "_t"; "y"]%string = mapVariables ["x"; "y"]%string.
Proof.
  destruct (mapVariables_skips ["x"; "_t"; "y"]%string "_t"%string)
    as (Habs & _ & Hsame).
  - left. by exists "t"%string.
  - split; [exact Habs |]. by apply (Hsame ["x"%string] ["y"%string]).
Defined.

End MapVariables.

Section AllocateFields.
Import VarMapper.

Implicit Types (vm : VariableMap) (counts bases : list Z).

Lemma allocateAll_cons vm c counts :
  allocateAll vm (c :: counts) =
    (nextFieldAddr vm :: fst (allocateAll (snd (allocateFields vm c)) counts),
     snd (allocateAll (snd (allocateFields vm c)) counts)).
Proof.
  simpl. by destruct (allocateAll _ counts).
Qed.

Lemma allocateAll_vars vm counts :
  vars (snd (allocateAll vm counts)) = vars vm /\
  nextRamAddr (snd (allocateAll vm counts)) = nextRamAddr vm.
Proof.
  revert vm. induction counts as [| c counts IH]; intros vm; [done |].
  rewrite allocateAll_cons. cbn [snd]. by destruct (IH (snd (allocateFields vm c))).
Qed.

Lemma allocateAll_next vm counts :
  nextFieldAddr (snd (allocateAll vm counts)) = nextFieldAddr vm + total counts.
Proof.
  revert vm. induction counts as [| c counts IH]; intros vm; simpl total.
  - simpl. lia.
  - rewrite allocateAll_cons. cbn [snd]. rewrite IH. simpl. lia.
Qed.

Lemma allocateAll_length vm counts :
  length (fst (allocateAll vm counts)) = length counts.
Proof.
  revert vm. induction counts as [| c counts IH]; intros vm; [done |].
  rewrite allocateAll_cons. cbn [fst length]. by rewrite IH.
Qed.

Lemma allocateAll_base vm counts (k : nat) base :
  fst (allocateAll vm counts) !! k = Some base ->
  base = nextFieldAddr vm + total (take k counts).
Proof.
  revert vm k. induction counts as [| c counts IH]; intros vm k; [done |].
  rewrite allocateAll_cons. cbn [fst]. destruct k as [| k].
  - simpl. intros [= <-]. lia.
  - cbn [lookup list_lookup]. intros Hk. apply IH in Hk. subst base.
    simpl. lia.
Qed.

Lemma total_nonneg counts : Forall (fun c => 0 <= c) counts -> 0 <= total counts.
Proof. induction 1; simpl; lia. Qed.

Lemma total_app counts1 counts2 :
  total (counts1 ++ counts2) = total counts1 + total counts2.
Proof. induction counts1; simpl; lia. Qed.

(** The cells of block [i] end where a later block [j] starts or before. *)
Lemma total_take_mono counts (i j : nat) ci :
  Forall (fun c => 0 <= c) counts -> (i < j)%nat -> counts !! i = Some ci ->
  total (take i counts) + ci <= total (take j counts).
Proof.
  intros Hpos Hij Hi.
  replace j with (i + S (j - S i))%nat by lia.
  rewrite <- take_take_drop, total_app, (drop_S _ _ _ Hi). simpl.
  assert (0 <= total (take (j - S i) (drop (S i) counts))); [| lia].
  apply total_nonneg. by apply Forall_take, Forall_drop.
Qed.

Lemma total_take_le counts (k : nat) :
  Forall (fun c => 0 <= c) counts -> total (take k counts) <= total counts.
Proof.
  intros Hpos. rewrite <- (take_drop k counts) at 2. rewrite total_app.
  assert (0 <= total (drop k counts)); [| lia].
  apply total_nonneg. by apply Forall_drop.
Qed.

(** C4. On the map returned by [mapVariables] the first call of
    [allocateFields] returns 0x20; a call with count [c] returns the
    current [nextFieldAddr] and advances it by [c]; the k-th call of a
    sequence returns 0x20 plus the counts of the calls before it, so the
    block of an earlier call ends at or before the base of every later
    one and no cell is handed out twice.  Counts are numbers of cells,
    not negative, and the field region stays within the integers that
    JavaScript numbers add exactly: 0x20 plus all counts is at most
    [MAX_SAFE_INTEGER]. *)
Theorem allocateFields_contiguous (variableNames : list string) counts :
  Forall (fun c => 0 <= c) counts ->
  0x20 + total counts <= MAX_SAFE_INTEGER ->
  let fresh := mapVariables variableNames in
  let bases := fst (allocateAll fresh counts) in
  (forall c, fst (allocateFields fresh c) = 0x20) /\
  (forall vm c,
     0 <= nextFieldAddr vm -> 0 <= c ->
     nextFieldAddr vm + c <= MAX_SAFE_INTEGER ->
     fst (allocateFields vm c) = nextFieldAddr vm /\
     nextFieldAddr (snd (allocateFields vm c)) = nextFieldAddr vm + c) /\
  length bases = length counts /\
  (forall (k : nat) base,
     bases !! k = Some base -> base = 0x20 + total (take k counts)) /\
  nextFieldAddr (snd (allocateAll fresh counts)) = 0x20 + total counts /\
  (forall (i j : nat) bi ci bj,
     (i < j)%nat -> bases !! i = Some bi -> counts !! i = Some ci ->
     bases !! j = Some bj -> bi + ci <= bj).
Proof.
  intros Hpos Hsafe fresh bases.
  split; [done |]. split; [done |]. split; [apply allocateAll_length |].
  split; [| split].
  - intros k base Hk. by apply allocateAll_base in Hk.
  - by rewrite allocateAll_next.
  - intros i j bi ci bj Hij Hi Hci Hj.
    apply allocateAll_base in Hi, Hj. subst bi bj. cbn [fresh mapVariables nextFieldAddr].
    pose proof (total_take_mono counts i j ci Hpos Hij Hci). lia.
Qed.

Lemma allocateFields_contiguous_witness :
  fst (allocateAll (mapVariables ["x"; "y"]%string) [2; 0; 3]) = [0x20; 0x22; 0x22] /\
  nextFieldAddr (snd (allocateAll (mapVariables ["x"; "y"]%string) [2; 0; 3])) = 0x25.
Proof.
  assert (Forall (fun c => 0 <= c) [2; 0; 3]) as Hpos
    by (repeat constructor; lia).
  assert (0x20 + total [2; 0; 3] <= MAX_SAFE_INTEGER) as Hsafe
    by (vm_compute; discriminate).
  destruct (allocateFields_contiguous ["x"; "y"]%string [2; 0; 3] Hpos Hsafe)
    as (_ & _ & _ & _ & Hnext & _).
  split; [reflexivity | exact Hnext].
Defined.

Lemma step_all_ram st name :
  map_Forall (fun _ vmap => location vmap = RAM /\ is_Some (ramAddr vmap)) (fst st) ->
  map_Forall (fun _ vmap => location vmap = RAM /\ is_Some (ramAddr vmap))
    (fst (mapVariables_step st name)).
Proof.
  intros Hst. unfold mapVariables_step.
  destruct (String.prefix "_" name); [done |].
  destruct (String.eqb name "coord"); [done |].
  cbn [fst]. apply map_Forall_insert_2; [| done]. by split.
Qed.

(** C8. Every mapping in the map returned by [mapVariables] has location
    ['ram'] and a defined [ramAddr], and [allocateFields] leaves the
    mappings as they are: no operation of the variable mapper assigns
    ['stack']. *)
Theorem mapVariables_all_ram (variableNames : list string) counts :
  map_Forall (fun _ vmap => location vmap = RAM /\ is_Some (ramAddr vmap))
    (vars (mapVariables variableNames)) /\
  vars (snd (allocateAll (mapVariables variableNames) counts))
    = vars (mapVariables variableNames) /\
  (forall vm c, vars (snd (allocateFields vm c)) = vars vm).
Proof.
  split; [| split].
  - unfold mapVariables. cbn [vars].
    assert (forall l st,
      map_Forall (fun _ vmap => location vmap = RAM /\ is_Some (ramAddr vmap)) (fst st) ->
      map_Forall (fun _ vmap => location vmap = RAM /\ is_Some (ramAddr vmap))
        (fst (fold_left mapVariables_step l st))) as Hinv.
    { induction l as [| n l IH]; intros st Hst; [done |].
      simpl. by apply IH, step_all_ram. }
    apply Hinv. cbn [fst]. apply map_Forall_empty.
  - apply allocateAll_vars.
  - done.
Qed.

(** The cells of the variables lie at 0x40 - N and above. *)
Lemma mapVariables_addr_ge names name (vmap : VarMapping) a :
  NoDup names ->
  vars (mapVariables names) !! name = Some vmap -> ramAddr vmap = Some a ->
  0x40 - Z.of_nat (length (allocated names)) <= a <= 0x3F.
Proof.
  intros Hnd Hl Ha.
  destruct (mapVariables_entry _ _ _ Hnd Hl) as (i & Hi & ->).
  apply lookup_lt_Some in Hi. simpl in Ha. injection Ha as <-. lia.
Qed.

Lemma allocateAll_base_lookup vm counts (k : nat) c :
  counts !! k = Some c ->
  fst (allocateAll vm counts) !! k = Some (nextFieldAddr vm + total (take k counts)).
Proof.
  intros Hc.
  destruct (fst (allocateAll vm counts) !! k) as [base |] eqn:Hk.
  - by apply allocateAll_base in Hk as ->.
  - apply lookup_ge_None in Hk. rewrite allocateAll_length in Hk.
    apply lookup_lt_Some in Hc. lia.
Qed.

(** Every cell below the total lies in the block of one call. *)
Lemma total_locate counts d :
  Forall (fun c => 0 <= c) counts -> 0 <= d < total counts ->
  exists (k : nat) c,
    counts !! k = Some c /\
    total (take k counts) <= d < total (take k counts) + c.
Proof.
  intros Hpos. revert d. induction Hpos as [| c counts Hc Hpos IH]; intros d Hd.
  - simpl in Hd. lia.
  - simpl in Hd. destruct (Z_lt_dec d c) as [Hlt | Hge].
    + exists 0%nat, c. simpl. split; [done | lia].
    + destruct (IH (d - c)) as (k & c' & Hk & Hin); [lia |].
      exists (S k), c'. simpl. split; [done | lia].
Qed.

(** C2, as the code has it. The allocator has no overlap check and
    returns on every input.  While the number of allocated variables
    plus the number of field cells reserved is at most 32, every field
    block ends at or below every variable cell, so the two regions are
    disjoint; once there are variables and field cells and together they
    are more than 32, a returned block contains the cell of a variable. *)
Theorem allocator_regions_disjoint (variableNames : list string) counts :
  NoDup variableNames ->
  Forall (fun c => 0 <= c) counts ->
  let cells := Z.of_nat (length (allocated variableNames)) in
  let bases := fst (allocateAll (mapVariables variableNames) counts) in
  let vm := snd (allocateAll (mapVariables variableNames) counts) in
  (cells + total counts <= 32 ->
   forall name (vmap : VarMapping) a (k : nat) base c,
     vars vm !! name = Some vmap -> ramAddr vmap = Some a ->
     bases !! k = Some base -> counts !! k = Some c ->
     base + c <= a) /\
  (0 < cells -> 0 < total counts -> 32 < cells + total counts ->
   exists (k : nat) base c,
     bases !! k = Some base /\ counts !! k = Some c /\ overlaps vm base c).
Proof.
  intros Hnd Hpos cells bases vm. split.
  - intros Hfit name vmap a k base c Hname Ha Hk Hc.
    unfold vm in Hname. rewrite (proj1 (allocateAll_vars _ _)) in Hname.
    pose proof (mapVariables_addr_ge _ _ _ _ Hnd Hname Ha) as Hge.
    apply allocateAll_base in Hk. cbn [mapVariables nextFieldAddr] in Hk.
    pose proof (total_take_mono counts k (S k) c Hpos (Nat.lt_succ_diag_r k) Hc).
    pose proof (total_take_le counts (S k) Hpos). unfold cells in Hfit. lia.
  - intros Hvars Hfields Hover.
    set (a := Z.max 0x20 (0x40 - cells)).
    destruct (total_locate counts (a - 0x20) Hpos) as (k & c & Hc & Hin);
      [unfold a; lia |].
    exists k, (0x20 + total (take k counts)), c. split; [| split; [done |]].
    + unfold bases. by rewrite (allocateAll_base_lookup _ _ _ c).
    + destruct (lookup_lt_is_Some_2 (allocated variableNames) (Z.to_nat (0x3F - a)))
        as [name Hname]; [unfold a, cells in *; lia |].
      exists name, (mkVarMapping RAM (Some a)), a.
      split; [| split; [done | lia]].
      unfold vm. rewrite (proj1 (allocateAll_vars _ _)).
      rewrite (mapVariables_lookup _ _ _ Hnd Hname). do 3 f_equal.
      unfold a, cells in *. lia.
Qed.

Lemma allocator_regions_disjoint_witness :
  vars (mapVariables ["x"; "y"]%string) !! "y"%string
    = Some (mkVarMapping RAM (Some 0x3E)) /\
  fst (allocateFields (mapVariables ["x"; "y"]%string) 30) + 30 <= 0x3E.
Proof.
  split; [reflexivity |].
  assert (NoDup ["x"; "y"]%string) as Hnd
    by (apply (bool_decide_unpack _); vm_compute; exact I).
  assert (Forall (fun c => 0 <= c) [30]) as Hpos by (repeat constructor; lia).
  assert (Z.of_nat (length (allocated ["x"; "y"]%string)) + total [30] <= 32)
    as Hfit by (vm_compute; discriminate).
  exact (proj1 (allocator_regions_disjoint _ _ Hnd Hpos) Hfit
           "y"%string (mkVarMapping RAM (Some 0x3E)) 0x3E 0%nat 0x20 30
           eq_refl eq_refl eq_refl eq_refl).
Defined.

(** C2, counterexample. Two variables and one block of 31 fields: the
    call returns the block 0x20 .. 0x3E although the variable [y] lives
    at 0x3E; a base address comes back, not an error. *)
Lemma allocator_overlap_unreported :
  let vm := mapVariables ["x"; "y"]%string in
  NoDup ["x"; "y"]%string /\
  allocateFields vm 31 = (0x20, mkVariableMap (vars vm) 0x3D (0x20 + 31)) /\
  overlaps (snd (allocateFields vm 31)) (fst (allocateFields vm 31)) 31.
Proof.
  split; [apply (bool_decide_unpack _); vm_compute; exact I |].
  split; [reflexivity |].
  exists "y"%string, (mkVarMapping RAM (Some 0x3E)), 0x3E.
  split; [reflexivity |]. split; [reflexivity |]. simpl. lia.
Qed.

End AllocateFields.

(** ** Source-map lookup *)

Section FindCubeLocation.
Import SourceMap.

Implicit Types (sm : list SourceMapEntry) (e b : SourceMapEntry) (pc : Z).

(** What the loop maintains: the current best is at or below [pc]. *)
Lemma step_cases pc best e :
  (addr e <= pc /\
     (best = None \/ exists b0, best = Some b0 /\ addr b0 < addr e) /\
     findCubeLocation_step pc best e = Some e) \/
  ((pc < addr e \/ exists b0, best = Some b0 /\ addr e <= addr b0) /\
     findCubeLocation_step pc best e = best).
Proof.
  unfold findCubeLocation_step.
  destruct (Z.leb_spec (addr e) pc) as [Hle | Hgt].
  - destruct best as [b0 |].
    + destruct (Z.gtb_spec (addr e) (addr b0)) as [Hgt | Hle'].
      * left. eauto 6.
      * right. eauto 6.
    + left. eauto.
  - right. eauto.
Qed.

(** Entries above [pc] are passed over. *)
Lemma run_above pc sm best :
  Forall (fun e => pc < addr e) sm ->
  fold_left (findCubeLocation_step pc) sm best = best.
Proof.
  revert best. induction sm as [| e sm IH]; intros best Hsm; [done |].
  inversion Hsm; subst. simpl.
  replace (findCubeLocation_step pc best e) with best; [by apply IH |].
  unfold findCubeLocation_step.
  destruct (Z.leb_spec (addr e) pc); [lia | done].
Qed.

(** Once an entry is held, an entry is held. *)
Lemma run_some pc sm b0 :
  exists b, fold_left (findCubeLocation_step pc) sm (Some b0) = Some b.
Proof.
  revert b0. induction sm as [| e sm IH]; intros b0; simpl; [by eexists |].
  destruct (step_cases pc (Some b0) e) as [(_ & _ & ->) | (_ & ->)]; apply IH.
Qed.

(** The result of the loop started from [best]. *)
Lemma run_floor pc sm best b :
  (forall b0, best = Some b0 -> addr b0 <= pc) ->
  fold_left (findCubeLocation_step pc) sm best = Some b ->
  (In b sm \/ best = Some b) /\ addr b <= pc /\
  (forall e, In e sm -> addr e <= pc -> addr e <= addr b) /\
  (forall b0, best = Some b0 -> addr b0 <= addr b).
Proof.
  revert best. induction sm as [| e sm IH]; intros best Hbest Hrun.
  - simpl in Hrun. subst best. repeat split; auto.
    + contradiction.
    + intros b0 [= ->]. lia.
  - simpl in Hrun.
    destruct (step_cases pc best e) as [(Hle & Hprev & Hstep) | (Hskip & Hstep)];
      rewrite Hstep in Hrun;
      (apply IH in Hrun; [| by (intros b0 [= <-] || exact Hbest)]).
    + destruct Hrun as (Hin & Hb & Hmax & Hfrom).
      specialize (Hfrom e eq_refl). repeat split.
      * destruct Hin as [Hin | [= ->]]; left; [by right | by left].
      * done.
      * intros e' [<- | He'] ?; [done | by apply Hmax].
      * intros b0 ->. destruct Hprev as [? | (b1 & [= <-] & ?)]; [done | lia].
    + destruct Hrun as (Hin & Hb & Hmax & Hfrom). repeat split.
      * destruct Hin as [Hin | ->]; [left; by right | by right].
      * done.
      * intros e' [<- | He'] Hle; [| by apply Hmax].
        destruct Hskip as [? | (b0 & -> & ?)]; [lia |].
        specialize (Hfrom b0 eq_refl). lia.
      * done.
Qed.

Lemma findCubeLocation_none sm pc :
  findCubeLocation sm pc = None <-> Forall (fun e => pc < addr e) sm.
Proof.
  unfold findCubeLocation. split.
  - induction sm as [| e sm IH]; intros Hrun; [constructor |].
    simpl in Hrun.
    destruct (step_cases pc None e) as [(_ & _ & Hstep) | (Hskip & Hstep)];
      rewrite Hstep in Hrun.
    + destruct (run_some pc sm e) as [b Hb]. congruence.
    + destruct Hskip as [? | (? & ? & _)]; [| done]. constructor; auto.
  - intros Hsm. by apply run_above.
Qed.

Lemma findCubeLocation_is_floor sm pc b :
  findCubeLocation sm pc = Some b -> is_floor sm pc b.
Proof.
  intros Hrun. apply run_floor in Hrun; [| done].
  destruct Hrun as ([Hin | ?] & Hb & Hmax & _); [| done].
  by repeat split.
Qed.

(** Entries below the address of [e] leave a best below it. *)
Lemma run_below pc sm best e b :
  Forall (fun x => addr x < addr e) sm ->
  (forall b0, best = Some b0 -> addr b0 < addr e) ->
  fold_left (findCubeLocation_step pc) sm best = Some b ->
  addr b < addr e.
Proof.
  revert best. induction sm as [| x sm IH]; intros best Hsm Hbest Hrun.
  - by apply Hbest.
  - inversion Hsm; subst. simpl in Hrun.
    destruct (step_cases pc best x) as [(_ & _ & Hstep) | (_ & Hstep)];
      rewrite Hstep in Hrun; (eapply IH; [done | | exact Hrun]).
    + by intros b0 [= <-].
    + done.
Qed.

(** In a sorted map, the entries after one above [pc] are above [pc]. *)
Lemma sorted_tail_above pc e sm :
  addr_sorted (e :: sm) ->
  (forall next, head sm = Some next -> pc < addr next) ->
  Forall (fun x => pc < addr x) sm.
Proof.
  intros Hs Hnext. apply StronglySorted_inv in Hs as [Hs _].
  destruct sm as [| next sm]; [constructor |].
  specialize (Hnext next eq_refl).
  apply StronglySorted_inv in Hs as [_ Hall].
  constructor; [done |].
  eapply Forall_impl; [exact Hall |]. simpl. intros. lia.
Qed.

(** Of two entries with the same address the earlier one is kept; below
    the first address there is nothing to return. *)
Example findCubeLocation_tie :
  findCubeLocation [mkEntry 0 "a" 1; mkEntry 0 "b" 2; mkEntry 5 "c" 3] 2
    = Some (mkEntry 0 "a" 1).
Proof. reflexivity. Qed.

Example findCubeLocation_before_first :
  findCubeLocation [mkEntry 4 "a" 1; mkEntry 9 "b" 2] 3 = None.
Proof. reflexivity. Qed.

(** C5. Lookup in an address-sorted source map is floor lookup: when
    some entry is at or below [pc], the entry returned is at or below
    [pc] and no entry at or below [pc] has a greater address; and an
    entry, the first with its address, is returned for every [pc] from
    its own address up to, and not including, the address of the next
    entry. *)
Theorem findCubeLocation_floor sm pc :
  addr_sorted sm ->
  ((exists e, In e sm /\ addr e <= pc) ->
     exists b, findCubeLocation sm pc = Some b /\ is_floor sm pc b) /\
  (forall before e after,
     sm = before ++ e :: after ->
     Forall (fun x => addr x < addr e) before ->
     addr e <= pc ->
     (forall next, head after = Some next -> pc < addr next) ->
     findCubeLocation sm pc = Some e).
Proof.
  intros Hsorted. split.
  - intros (e & He & Hle).
    destruct (findCubeLocation sm pc) as [b |] eqn:Hrun.
    + exists b. split; [done |]. by apply findCubeLocation_is_floor.
    + apply findCubeLocation_none in Hrun.
      rewrite Forall_forall in Hrun. apply list_elem_of_In, Hrun in He. lia.
  - intros before e after -> Hbefore Hle Hnext.
    unfold findCubeLocation. rewrite fold_left_app. simpl.
    apply StronglySorted_app_1_r in Hsorted.
    rewrite run_above by (by eapply sorted_tail_above).
    destruct (step_cases pc (fold_left (findCubeLocation_step pc) before None) e)
      as [(_ & _ & Hstep) | (Hskip & _)]; [done |].
    destruct Hskip as [? | (b0 & Hb0 & ?)]; [lia |].
    apply (run_below pc before None e b0) in Hb0; [lia | done | done].
Qed.

Lemma findCubeLocation_floor_witness :
  let sm := [mkEntry 0 "main" 1; mkEntry 4 "loop" 3; mkEntry 9 "exit" 7] in
  findCubeLocation sm 4 = Some (mkEntry 4 "loop" 3) /\
  findCubeLocation sm 8 = Some (mkEntry 4 "loop" 3).
Proof.
  intros sm.
  assert (addr_sorted sm) as Hsorted
    by (repeat constructor; simpl; lia).
  split.
  - apply (proj2 (findCubeLocation_floor sm 4 Hsorted)
             [mkEntry 0 "main" 1] (mkEntry 4 "loop" 3) [mkEntry 9 "exit" 7]).
    + reflexivity.
    + repeat constructor; simpl; lia.
    + simpl; lia.
    + intros next [= <-]. simpl; lia.
  - apply (proj2 (findCubeLocation_floor sm 8 Hsorted)
             [mkEntry 0 "main" 1] (mkEntry 4 "loop" 3) [mkEntry 9 "exit" 7]).
    + reflexivity.
    + repeat constructor; simpl; lia.
    + simpl; lia.
    + intros next [= <-]. simpl; lia.
Defined.

(** C10. [findCubeLocation] returns [null] exactly when no entry of the
    source map is at or below [pc], as for the empty map and for a [pc]
    below the first mapped address, and an entry otherwise. *)
Theorem findCubeLocation_null sm pc :
  (findCubeLocation sm pc = None <-> forall e, In e sm -> pc < addr e) /\
  (is_Some (findCubeLocation sm pc) <-> exists e, In e sm /\ addr e <= pc) /\
  findCubeLocation [] pc = None.
Proof.
  split; [| split].
  - rewrite findCubeLocation_none, Forall_forall.
    by setoid_rewrite list_elem_of_In.
  - split.
    + intros [b Hb]. apply findCubeLocation_is_floor in Hb as (? & ? & _). eauto.
    + intros (e & He & Hle).
      destruct (findCubeLocation sm pc) as [b |] eqn:Hrun; [by eexists |].
      apply findCubeLocation_none in Hrun.
      rewrite Forall_forall in Hrun. apply list_elem_of_In, Hrun in He. lia.
  - reflexivity.
Qed.

End FindCubeLocation.

(** ** base64url *)

Section Base64url.
Import UrlSource.

Implicit Types (data s : list Z) (c : Z).

(** Induction over a list three elements at a time, as [b64_encode]
    consumes it. *)
Lemma triples_ind (P : list Z -> Prop) :
  P [] -> (forall a, P [a]) -> (forall a b, P [a; b]) ->
  (forall a b c rest, P rest -> P (a :: b :: c :: rest)) ->
  forall data, P data.
Proof.
  intros H0 H1 H2 H3.
  fix IH 1. intros [| a [| b [| c rest]]];
    [exact H0 | apply H1 | apply H2 | apply H3, IH].
Qed.

Lemma b64_char_code c : 0 <= c < 64 -> b64_code (b64_char c).
Proof.
  intros Hc. unfold b64_code, b64_char.
  repeat match goal with
         | |- context [?x <? ?y] => destruct (Z.ltb_spec x y)
         | |- context [?x =? ?y] => destruct (Z.eqb_spec x y)
         end; lia.
Qed.

Lemma b64_index_char c : 0 <= c < 64 -> b64_index (b64_char c) = Some c.
Proof.
  intros Hc. unfold b64_index, b64_char.
  repeat match goal with
         | |- context [?x <? ?y] => destruct (Z.ltb_spec x y)
         | |- context [?x =? ?y] => destruct (Z.eqb_spec x y)
         | |- context [?x <=? ?y] => destruct (Z.leb_spec x y)
         end; simpl; try lia; f_equal; lia.
Qed.

Lemma b64_encode_split data :
  b64_encode data = b64_body data ++ repeat pad (pad_count data).
Proof.
  induction data as [| a | a b | a b c rest IH] using triples_ind; try done.
  cbn [b64_encode b64_body pad_count]. by rewrite IH.
Qed.

Lemma b64_body_codes data : octets data -> Forall b64_code (b64_body data).
Proof.
  unfold octets.
  induction data as [| a | a b | a b c rest IH] using triples_ind; intros Hd.
  - constructor.
  - inversion Hd; subst. cbn [b64_body].
    repeat (constructor; [apply b64_char_code; sextet |]). constructor.
  - inversion Hd as [| ? ? ? Hd']; subst. inversion Hd'; subst. cbn [b64_body].
    repeat (constructor; [apply b64_char_code; sextet |]). constructor.
  - inversion Hd as [| ? ? ? Hd1]; subst. inversion Hd1 as [| ? ? ? Hd2]; subst.
    inversion Hd2; subst. cbn [b64_body].
    repeat (constructor; [apply b64_char_code; sextet |]). by apply IH.
Qed.

(** The body and the padding fill whole groups of four characters; the
    body alone never has a length of 1 modulo 4. *)
Lemma b64_body_length data :
  (Z.of_nat (length (b64_body data)) mod 4 = 0 /\ pad_count data = 0%nat) \/
  (Z.of_nat (length (b64_body data)) mod 4 = 2 /\ pad_count data = 2%nat) \/
  (Z.of_nat (length (b64_body data)) mod 4 = 3 /\ pad_count data = 1%nat).
Proof.
  induction data as [| a | a b | a b c rest IH] using triples_ind; auto.
  cbn [b64_body pad_count length].
  replace (Z.of_nat (S (S (S (S (length (b64_body rest)))))))
    with (Z.of_nat (length (b64_body rest)) + 1 * 4) by lia.
  by rewrite Z.mod_add.
Qed.

Lemma b64_decode_body data :
  octets data ->
  exists sextets,
    b64_indices (b64_body data) = Some sextets /\ b64_decode sextets = data.
Proof.
  unfold octets.
  induction data as [| a | a b | a b c rest IH] using triples_ind; intros Hd.
  - by exists [].
  - inversion Hd; subst. eexists. cbn [b64_body b64_indices].
    rewrite !b64_index_char by sextet. split; [done |].
    cbn [b64_decode]. f_equal. sextet.
  - inversion Hd as [| ? ? ? Hd']; subst. inversion Hd'; subst.
    eexists. cbn [b64_body b64_indices].
    rewrite !b64_index_char by sextet. split; [done |].
    cbn [b64_decode]. f_equal; [| f_equal]; sextet.
  - inversion Hd as [| ? ? ? Hd1]; subst. inversion Hd1 as [| ? ? ? Hd2]; subst.
    inversion Hd2; subst.
    destruct IH as (ss & Hss & Hdec); [done |].
    eexists. cbn [b64_body b64_indices]. rewrite Hss.
    rewrite !b64_index_char by sextet. split; [done |].
    cbn [b64_decode]. rewrite Hdec. f_equal; [| f_equal; [| f_equal]]; sextet.
Qed.

Lemma btoa_octets data : octets data -> btoa data = Some (b64_encode data).
Proof.
  intros Hd. unfold btoa.
  replace (forallb _ data) with true; [done |].
  symmetry. apply forallb_forall. intros c Hc.
  unfold octets in Hd. rewrite Forall_forall in Hd.
  apply list_elem_of_In, Hd in Hc. apply andb_true_iff. lia.
Qed.

Lemma fromCharCode_octets (bytes : list byte) :
  octets (List.map fromCharCode bytes).
Proof.
  unfold octets. induction bytes as [| b bytes IH]; constructor; [| done].
  unfold fromCharCode. pose proof (Byte.to_N_bounded b). lia.
Qed.

Lemma toUint8_fromCharCode (bytes : list byte) :
  List.map toUint8 (List.map fromCharCode bytes) = bytes.
Proof.
  induction bytes as [| b bytes IH]; [done |].
  simpl. rewrite IH. f_equal.
  unfold toUint8, fromCharCode. pose proof (Byte.to_N_bounded b).
  rewrite Z.mod_small by lia. by rewrite N2Z.id, Byte.of_to_N.
Qed.

(** The two replacements of [toBase64url] and of [fromBase64url]. *)
Lemma replace_all_app x y s1 s2 :
  replace_all x y (s1 ++ s2) = replace_all x y s1 ++ replace_all x y s2.
Proof. apply List.map_app. Qed.

Lemma replace_all_cons x y c s :
  replace_all x y (c :: s) = (if c =? x then y else c) :: replace_all x y s.
Proof. reflexivity. Qed.

Lemma replace_all_pads x y (k : nat) :
  x <> pad -> replace_all x y (repeat pad k) = repeat pad k.
Proof.
  intros Hx. induction k as [| k IH]; [done |].
  change (replace_all x y (repeat pad (S k)))
    with ((if pad =? x then y else pad) :: replace_all x y (repeat pad k)).
  rewrite IH. by destruct (Z.eqb_spec pad x) as [<- |].
Qed.

Lemma url_alphabet_back s :
  Forall b64_code s ->
  replace_all 95 47 (replace_all 45 43 (replace_all 47 95 (replace_all 43 45 s))) = s.
Proof.
  induction 1 as [| c s Hc Hs IH]; [done |].
  rewrite !replace_all_cons, IH. f_equal.
  unfold b64_code in Hc.
  destruct (Z.eqb_spec c 43) as [-> | ?]; [done |]. cbv iota.
  destruct (Z.eqb_spec c 47) as [-> | ?]; [done |]. cbv iota.
  destruct (Z.eqb_spec c 45); [lia |]. cbv iota.
  destruct (Z.eqb_spec c 95); [lia | done].
Qed.

Lemma url_alphabet_no_pad s :
  Forall b64_code s ->
  Forall (fun c => c <> pad) (replace_all 47 95 (replace_all 43 45 s)).
Proof.
  induction 1 as [| c s Hc Hs IH]; [constructor |].
  rewrite !replace_all_cons. constructor; [| exact IH].
  unfold b64_code, pad in *.
  destruct (Z.eqb_spec c 43) as [-> | ?]; [done |]. cbv iota.
  destruct (Z.eqb_spec c 47) as [-> | ?]; [done | lia].
Qed.

Lemma strip_trailing_pad_pads (k : nat) : strip_trailing_pad (repeat pad k) = [].
Proof. induction k as [| k IH]; [done |]. simpl. by rewrite IH. Qed.

Lemma strip_trailing_pad_app s (k : nat) :
  Forall (fun c => c <> pad) s ->
  strip_trailing_pad (s ++ repeat pad k) = s.
Proof.
  induction 1 as [| c s Hc Hs IH]; [apply strip_trailing_pad_pads |].
  simpl. rewrite IH.
  destruct s; [| done]. by destruct (Z.eqb_spec c pad).
Qed.

(** What [toBase64url] returns: the body of the encoding in the URL
    alphabet. *)
Lemma toBase64url_body (bytes : list byte) :
  toBase64url bytes =
    Some (replace_all 47 95 (replace_all 43 45
            (b64_body (List.map fromCharCode bytes)))).
Proof.
  unfold toBase64url. rewrite btoa_octets by apply fromCharCode_octets.
  rewrite b64_encode_split, !replace_all_app, !replace_all_pads by done.
  rewrite strip_trailing_pad_app; [done |].
  apply url_alphabet_no_pad, b64_body_codes, fromCharCode_octets.
Qed.

Lemma length_snoc_mod s c :
  Z.of_nat (length (s ++ [c])) mod 4 = (Z.of_nat (length s) mod 4 + 1) mod 4.
Proof.
  rewrite length_app, Nat2Z.inj_add. simpl length.
  by rewrite Zplus_mod_idemp_l.
Qed.

(** The loop of [fromBase64url] has stopped when [add_padding] returns:
    three iterations are enough for every string. *)
Lemma add_padding_exits s : Z.of_nat (length (add_padding s)) mod 4 = 0.
Proof.
  unfold add_padding. simpl.
  pose proof (Z.mod_pos_bound (Z.of_nat (length s)) 4 eq_refl) as Hs.
  destruct (Z.eqb_spec (Z.of_nat (length s) mod 4) 0) as [| H0]; [done |]. simpl.
  pose proof (length_snoc_mod s pad) as H1.
  destruct (Z.eqb_spec (Z.of_nat (length (s ++ [pad])) mod 4) 0) as [| H1']; [done |].
  simpl. pose proof (length_snoc_mod (s ++ [pad]) pad) as H2.
  destruct (Z.eqb_spec (Z.of_nat (length ((s ++ [pad]) ++ [pad])) mod 4) 0)
    as [| H2']; [done |].
  simpl. rewrite length_snoc_mod.
  revert H1 H1' H2 H2'.
  generalize (Z.of_nat (length ((s ++ [pad]) ++ [pad])) mod 4).
  generalize (Z.of_nat (length (s ++ [pad])) mod 4).
  revert Hs H0. generalize (Z.of_nat (length s) mod 4).
  intros z0 Hs H0 z1 z2 H1 H1' H2 H2'. subst z1 z2.
  assert (z0 = 1 \/ z0 = 2 \/ z0 = 3) as [-> | [-> | ->]] by lia; done.
Qed.

Lemma add_padding_body data :
  add_padding (b64_body data) = b64_body data ++ repeat pad (pad_count data).
Proof.
  unfold add_padding. simpl.
  destruct (b64_body_length data) as [[Hl ->] | [[Hl ->] | [Hl ->]]].
  - rewrite Hl. simpl. by rewrite app_nil_r.
  - rewrite Hl. simpl. rewrite length_snoc_mod, Hl. simpl.
    rewrite length_snoc_mod, length_snoc_mod, Hl. simpl.
    by rewrite <- app_assoc.
  - rewrite Hl. simpl. by rewrite length_snoc_mod, Hl.
Qed.

Lemma filter_whitespace_encoded s (k : nat) :
  Forall b64_code s ->
  List.filter (fun c => negb (is_ascii_whitespace c)) (s ++ repeat pad k)
    = s ++ repeat pad k.
Proof.
  intros Hs. apply forallb_filter_id, forallb_forall. intros c Hc.
  apply in_app_or in Hc as [Hc | Hc].
  - rewrite Forall_forall in Hs. apply list_elem_of_In, Hs in Hc.
    unfold b64_code in Hc. unfold is_ascii_whitespace.
    apply negb_true_iff. rewrite !orb_false_iff, !Z.eqb_neq. lia.
  - apply repeat_spec in Hc as ->. reflexivity.
Qed.

Lemma rev_last_no_pad s :
  Forall (fun c => c <> pad) s ->
  match rev s with
  | [] => s = []
  | c :: _ => c <> pad
  end.
Proof.
  intros Hs. destruct (rev s) as [| c r] eqn:Hr.
  - by rewrite <- (rev_involutive s), Hr.
  - rewrite Forall_forall in Hs. apply Hs, list_elem_of_In, in_rev.
    rewrite Hr. by left.
Qed.

Lemma remove_padding_encoded data :
  octets data ->
  remove_padding (b64_body data ++ repeat pad (pad_count data)) = b64_body data.
Proof.
  intros Hd. pose proof (b64_body_codes data Hd) as Hcodes.
  assert (Forall (fun c => c <> pad) (b64_body data)) as Hnp.
  { eapply Forall_impl; [exact Hcodes |]. unfold b64_code, pad. simpl. lia. }
  apply rev_last_no_pad in Hnp. unfold remove_padding.
  destruct (b64_body_length data) as [[Hl ->] | [[Hl ->] | [Hl ->]]].
  - cbn [repeat]. rewrite app_nil_r, Hl. cbn [Z.eqb].
    destruct (rev (b64_body data)) as [| c1 [| c2 r]]; [done | |];
      by destruct (Z.eqb_spec c1 pad).
  - change (repeat pad 2) with ([pad] ++ [pad]).
    rewrite app_assoc, !length_snoc_mod, Hl. cbn [Z.eqb Z.add Z.modulo Z.div_eucl Z.pos_div_eucl].
    rewrite !rev_app_distr. cbn [rev app]. rewrite Z.eqb_refl.
    apply rev_involutive.
  - cbn [repeat]. rewrite length_snoc_mod, Hl.
    cbn [Z.eqb Z.add Z.modulo Z.div_eucl Z.pos_div_eucl].
    rewrite rev_app_distr. cbn [rev app].
    destruct (rev (b64_body data)) as [| c2 r] eqn:Hr.
    + rewrite Hnp in Hl. discriminate.
    + rewrite !Z.eqb_refl. destruct (Z.eqb_spec c2 pad); [done |].
      change (rev r ++ [c2]) with (rev (c2 :: r)).
      by rewrite <- Hr, rev_involutive.
Qed.

(** [atob] inverts [btoa] on binary strings. *)
Lemma atob_encoded data :
  octets data ->
  atob (b64_body data ++ repeat pad (pad_count data)) = Some data.
Proof.
  intros Hd. unfold atob.
  rewrite filter_whitespace_encoded by by apply b64_body_codes.
  rewrite remove_padding_encoded by done.
  replace (Z.of_nat (length (b64_body data)) mod 4 =? 1) with false.
  - destruct (b64_decode_body data Hd) as (ss & -> & Hdec). by rewrite Hdec.
  - symmetry. apply Z.eqb_neq.
    destruct (b64_body_length data) as [[-> _] | [[-> _] | [-> _]]]; lia.
Qed.

(** Known values: the bytes of "Man" give "TWFu"; 0xFB 0xFF give "+/8="
    in base64, hence "-_8" in the URL form. *)
Example btoa_Man : btoa [77; 97; 110] = Some [84; 87; 70; 117].
Proof. reflexivity. Qed.

Example toBase64url_fb_ff : toBase64url [xfb; xff] = Some [45; 95; 56].
Proof. reflexivity. Qed.

Example fromBase64url_fb_ff : fromBase64url [45; 95; 56] = Some [xfb; xff].
Proof. reflexivity. Qed.

Example atob_rejects : atob [84; 87; 70; 117; 65] = None.
Proof. reflexivity. Qed.

(** C9. For every byte array, [toBase64url] returns a string and
    [fromBase64url] returns the same bytes from it. *)
Theorem base64url_roundtrip (bytes : list byte) :
  exists str,
    toBase64url bytes = Some str /\ fromBase64url str = Some bytes.
Proof.
  eexists. split; [apply toBase64url_body |].
  unfold fromBase64url.
  rewrite url_alphabet_back by apply b64_body_codes, fromCharCode_octets.
  rewrite add_padding_body, atob_encoded by apply fromCharCode_octets.
  by rewrite toUint8_fromCharCode.
Qed.

End Base64url.

(** ** Port wiring *)

Section PortWiring.
Import Wiring.

Variable dirMatches : Z -> Direction -> bool.

Implicit Types (out : Output) (op : PortOp) (P coord : Z).

Lemma wiringErrors_elem out coord op :
  In (UnmatchedPort coord op) (wiringErrors dirMatches out) <->
  exists ops, In (coord, ops) out /\ In op ops /\
    has_counterpart dirMatches out op = false.
Proof.
  unfold wiringErrors. rewrite in_flat_map. split.
  - intros ([c ops] & Hn & Hop). apply in_map_iff in Hop as (op' & [= <- <-] & Hop).
    apply filter_In in Hop as [Hop Hun]. apply negb_true_iff in Hun.
    simpl in *. eauto.
  - intros (ops & Hn & Hop & Hun). exists (coord, ops). split; [done |].
    apply in_map_iff. exists op. split; [done |].
    apply filter_In. split; [done |]. by apply negb_true_iff.
Qed.

Lemma finalizeWiring_ok out out' :
  finalizeWiring dirMatches out = inr out' ->
  out' = out /\ wiringErrors dirMatches out = [].
Proof.
  unfold finalizeWiring. destruct (wiringErrors dirMatches out); [| done].
  by intros [= <-].
Qed.

(** After the removal nothing receives on [P]. *)
Lemma removeReceivers_none P out :
  existsb (fun n => existsb (receives dirMatches P) (snd n))
    (removeReceivers dirMatches P out) = false.
Proof.
  apply not_true_iff_false. intros Hex.
  apply existsb_exists in Hex as ([c ops] & Hn & Hex).
  apply existsb_exists in Hex as (op & Hop & Hrecv).
  unfold removeReceivers in Hn. apply in_map_iff in Hn as ([c' ops'] & [= <- <-] & _).
  simpl in Hop. apply filter_In in Hop as [_ Hop]. by rewrite Hrecv in Hop.
Qed.

(** A [send] is not removed. *)
Lemma removeReceivers_send P Q out coord ops :
  In (coord, ops) out -> In (Send Q) ops ->
  exists ops', In (coord, ops') (removeReceivers dirMatches P out) /\
    In (Send Q) ops'.
Proof.
  intros Hn Hop. eexists. split.
  - unfold removeReceivers. apply in_map_iff. exists (coord, ops). by split.
  - simpl. by apply filter_In.
Qed.

(** C7. When wiring validation succeeds, every [send] on a port [P] of the
    compiled output has an operation that receives on [P], a [recv] on
    [P] or a matching directional read, in the output of some node; and
    from a program that has a [send] on [P], removing what receives on
    [P] gives a program whose compilation fails with an emission error
    for that [send]. *)
Theorem wiring_send_matched out :
  (forall out' coord ops P,
     finalizeWiring dirMatches out = inr out' ->
     In (coord, ops) out' -> In (Send P) ops ->
     exists coord' ops' op,
       In (coord', ops') out' /\ In op ops' /\ receives dirMatches P op = true) /\
  (forall coord ops P,
     In (coord, ops) out -> In (Send P) ops ->
     exists errs,
       finalizeWiring dirMatches (removeReceivers dirMatches P out) = inl errs /\
       In (UnmatchedPort coord (Send P)) errs).
Proof.
  split.
  - intros out' coord ops P Hok Hn Hop.
    apply finalizeWiring_ok in Hok as [-> Hnone].
    destruct (has_counterpart dirMatches out (Send P)) eqn:Hc.
    + simpl in Hc. apply existsb_exists in Hc as ([c' ops'] & Hn' & Hc).
      apply existsb_exists in Hc as (op & Hop' & Hrecv). eauto 6.
    + assert (In (UnmatchedPort coord (Send P)) (wiringErrors dirMatches out)) as Herr
        by (apply wiringErrors_elem; eauto).
      by rewrite Hnone in Herr.
  - intros coord ops P Hn Hop.
    destruct (removeReceivers_send P P out coord ops Hn Hop) as (ops' & Hn' & Hop').
    assert (In (UnmatchedPort coord (Send P))
              (wiringErrors dirMatches (removeReceivers dirMatches P out))) as Herr.
    { apply wiringErrors_elem. exists ops'. repeat split; [done | done |].
      apply removeReceivers_none. }
    unfold finalizeWiring.
    destruct (wiringErrors dirMatches (removeReceivers dirMatches P out)) as [| e errs];
      [done |].
    by exists (e :: errs).
Qed.

End PortWiring.

(** The Lucas pipeline: node 608 sends on port 0x145 and node 708
    receives there; without the receiver, emission fails. *)
Lemma wiring_send_matched_witness :
  let out := [(608, [Wiring.Send 0x145]); (708, [Wiring.Recv 0x145])] in
  Wiring.finalizeWiring (fun _ _ => false) out = inr out /\
  exists errs,
    Wiring.finalizeWiring (fun _ _ => false)
      (Wiring.removeReceivers (fun _ _ => false) 0x145 out) = inl errs /\
    In (Wiring.UnmatchedPort 608 (Wiring.Send 0x145)) errs.
Proof.
  intros out. split; [reflexivity |].
  apply (proj2 (wiring_send_matched (fun _ _ => false) out)
           608 [Wiring.Send 0x145] 0x145).
  - left. reflexivity.
  - left. reflexivity.
Defined.

(** * Further properties of the embedded code *)

(** ** varmapper.ts *)

Section VarMapperMore.
Import VarMapper.

Implicit Types (names : list string) (name : string) (a : Z).

(** The loop keeps every address handed out above the counter and at or
    below 0x3F. *)
Lemma run_range l (st : gmap string VarMapping * Z) :
  snd st <= 0x3F ->
  map_Forall (fun _ vmap => exists a, ramAddr vmap = Some a /\ snd st < a <= 0x3F)
    (fst st) ->
  let st' := fold_left mapVariables_step l st in
  snd st' <= 0x3F /\
  map_Forall (fun _ vmap => exists a, ramAddr vmap = Some a /\ snd st' < a <= 0x3F)
    (fst st').
Proof.
  revert st. induction l as [| n l IH]; intros st Hle Hall; [done |].
  simpl. apply IH.
  - unfold mapVariables_step.
    destruct (String.prefix "_" n); [done |].
    destruct (String.eqb n "coord"); [done |]. simpl. lia.
  - unfold mapVariables_step.
    destruct (String.prefix "_" n); [done |].
    destruct (String.eqb n "coord"); [done |]. cbn [fst snd].
    apply map_Forall_insert_2.
    + exists (snd st). split; [done | lia].
    + eapply map_Forall_impl; [exact Hall |].
      intros _ vmap (a & Ha & Hr). exists a. split; [done | lia].
Qed.

(** X1. Whatever the input, every address in the map returned by
    [mapVariables] lies above the returned [nextRamAddr] and at or below
    0x3F: the cell the counter points at is still free. *)
Theorem mapVariables_next_free names name (vmap : VarMapping) :
  vars (mapVariables names) !! name = Some vmap ->
  exists a, ramAddr vmap = Some a /\
    nextRamAddr (mapVariables names) < a <= 0x3F.
Proof.
  intros Hl.
  destruct (run_range names (∅, 0x3F)) as [_ Hall].
  - simpl. lia.
  - apply map_Forall_empty.
  - exact (Hall name vmap Hl).
Qed.

Lemma mapVariables_next_free_witness :
  exists a, ramAddr (mkVarMapping RAM (Some 0x3E)) = Some a /\
    nextRamAddr (mapVariables ["x"; "_t"; "y"]%string) < a <= 0x3F.
Proof.
  apply (mapVariables_next_free ["x"; "_t"; "y"]%string "y"%string).
  reflexivity.
Defined.

(** X2. Names added after the others do not move them: a name that is
    not among the added ones keeps the mapping it has without them, and
    the counter goes on from where it stood. *)
Theorem mapVariables_app names more name :
  name ∉ more ->
  vars (mapVariables (names ++ more)) !! name = vars (mapVariables names) !! name /\
  nextRamAddr (mapVariables (names ++ more))
    = nextRamAddr (mapVariables names) - Z.of_nat (length (allocated more)).
Proof.
  intros Hout. unfold mapVariables. cbn [vars nextRamAddr].
  rewrite fold_left_app.
  destruct (fold_left mapVariables_step names (∅, 0x3F)) as [m a]. split.
  - by rewrite run_other.
  - rewrite run_allocated. rewrite run_counter by apply allocated_kept. done.
Qed.

Lemma mapVariables_app_witness :
  vars (mapVariables (["x"; "y"]%string ++ ["z"%string])) !! "y"%string
    = vars (mapVariables ["x"; "y"]%string) !! "y"%string /\
  nextRamAddr (mapVariables (["x"; "y"]%string ++ ["z"%string]))
    = nextRamAddr (mapVariables ["x"; "y"]%string)
      - Z.of_nat (length (allocated ["z"%string])).
Proof.
  apply (mapVariables_app ["x"; "y"]%string ["z"%string] "y"%string).
  apply (bool_decide_unpack _). vm_compute. exact I.
Defined.

(** X3. [mapVariables] has no lower bound on the addresses: with at most
    64 allocated names every address is a RAM address, 0 to 0x3F; with
    more, the 65th allocated name is mapped to -1.  No error is raised. *)
Theorem mapVariables_ram_bounds names :
  NoDup names ->
  let n := length (allocated names) in
  ((n <= 64)%nat ->
   forall name (vmap : VarMapping),
     vars (mapVariables names) !! name = Some vmap ->
     exists a, ramAddr vmap = Some a /\ 0 <= a <= 0x3F) /\
  ((64 < n)%nat ->
   exists name,
     allocated names !! 64%nat = Some name /\
     vars (mapVariables names) !! name = Some (mkVarMapping RAM (Some (-1)))).
Proof.
  intros Hnd n. split.
  - intros Hn name vmap Hl.
    destruct (mapVariables_entry _ _ _ Hnd Hl) as (i & Hi & ->).
    apply lookup_lt_Some in Hi. eexists. split; [done |]. unfold n in Hn. lia.
  - intros Hn.
    destruct (lookup_lt_is_Some_2 (allocated names) 64) as [name Hname]; [done |].
    exists name. split; [done |].
    by rewrite (mapVariables_lookup _ _ _ Hnd Hname).
Qed.

Lemma mapVariables_ram_bounds_witness :
  exists a, ramAddr (mkVarMapping RAM (Some 0x3E)) = Some a /\ 0 <= a <= 0x3F.
Proof.
  assert (NoDup ["x"; "y"]%string) as Hnd
    by (apply (bool_decide_unpack _); vm_compute; exact I).
  apply (proj1 (mapVariables_ram_bounds _ Hnd)) with (name := "y"%string).
  - simpl. lia.
  - reflexivity.
Defined.

End VarMapperMore.

(** ** NodeDetailPanel.tsx *)

Section FindCubeLocationMore.
Import SourceMap.

Implicit Types (sm : list SourceMapEntry) (e b : SourceMapEntry) (pc : Z).

Lemma findCubeLocation_snoc sm e pc :
  findCubeLocation (sm ++ [e]) pc
    = findCubeLocation_step pc (findCubeLocation sm pc) e.
Proof. unfold findCubeLocation. by rewrite fold_left_app. Qed.

(** From a held entry, entries that are above [pc] or not above the held
    one change nothing. *)
Lemma run_keep pc sm b :
  Forall (fun x => pc < addr x \/ addr x <= addr b) sm ->
  fold_left (findCubeLocation_step pc) sm (Some b) = Some b.
Proof.
  induction sm as [| x sm IH]; intros Hsm; [done |].
  inversion Hsm as [| ? ? Hx Hsm']; subst. simpl.
  destruct (step_cases pc (Some b) x) as [(Hle & Hprev & _) | (_ & ->)];
    [| by apply IH].
  destruct Hprev as [? | (b0 & [= <-] & ?)]; [done | lia].
Qed.

(** X5. For any list of entries, sorted or not, [findCubeLocation]
    returns [b] exactly when [b] stands in the list at or below [pc],
    every entry before it is above [pc] or strictly below [b], and every
    entry after it is above [pc] or not above [b]: the first entry of
    greatest address not exceeding [pc]. *)
Theorem findCubeLocation_first_greatest sm pc b :
  findCubeLocation sm pc = Some b <->
  exists before after,
    sm = before ++ b :: after /\ addr b <= pc /\
    Forall (fun x => pc < addr x \/ addr x < addr b) before /\
    Forall (fun x => pc < addr x \/ addr x <= addr b) after.
Proof.
  split.
  - revert b. induction sm as [| e sm IH] using rev_ind; intros b Hrun; [done |].
    rewrite findCubeLocation_snoc in Hrun.
    destruct (step_cases pc (findCubeLocation sm pc) e)
      as [(Hle & Hprev & Hstep) | (Hskip & Hstep)]; rewrite Hstep in Hrun.
    + injection Hrun as <-. exists sm, []. repeat split; [done | | constructor].
      apply Forall_forall. intros x Hx. apply list_elem_of_In in Hx.
      destruct (Z_lt_dec pc (addr x)) as [| Hxle]; [by left | right].
      destruct Hprev as [Hnone | (b0 & Hb0 & Hlt)].
      * apply findCubeLocation_none in Hnone. rewrite Forall_forall in Hnone.
        apply list_elem_of_In, Hnone in Hx. lia.
      * apply findCubeLocation_is_floor in Hb0 as (_ & _ & Hmax).
        specialize (Hmax x Hx). lia.
    + destruct (IH b Hrun) as (before & after & -> & Hle & Hbefore & Hafter).
      exists before, (after ++ [e]). rewrite <- app_assoc. repeat split; try done.
      apply Forall_app. split; [done |]. constructor; [| constructor].
      destruct Hskip as [? | (b0 & Hb0 & ?)]; [by left | right].
      rewrite Hrun in Hb0. by injection Hb0 as <-.
  - intros (before & after & -> & Hle & Hbefore & Hafter).
    unfold findCubeLocation. rewrite fold_left_app. simpl.
    destruct (step_cases pc (fold_left (findCubeLocation_step pc) before None) b)
      as [(_ & _ & ->) | (Hskip & _)]; [by apply run_keep |].
    destruct Hskip as [? | (b0 & Hb0 & Hge)]; [lia |].
    apply findCubeLocation_is_floor in Hb0 as (Hin & Hb0 & _).
    rewrite Forall_forall in Hbefore. apply list_elem_of_In, Hbefore in Hin. lia.
Qed.

Lemma findCubeLocation_first_greatest_witness :
  findCubeLocation [mkEntry 9 "c" 3; mkEntry 4 "a" 1; mkEntry 4 "b" 2] 7
    = Some (mkEntry 4 "a" 1).
Proof.
  apply findCubeLocation_first_greatest.
  exists [mkEntry 9 "c" 3], [mkEntry 4 "b" 2]. split; [reflexivity |].
  split; [simpl; lia |]. split; repeat constructor; simpl; lia.
Defined.

(** An address names one entry when no two entries share an address. *)
Lemma addr_unique sm e b :
  NoDup (List.map addr sm) -> In e sm -> In b sm -> addr e = addr b -> e = b.
Proof.
  induction sm as [| x sm IH]; intros Hnd He Hb Heq; [done |].
  simpl in Hnd. apply NoDup_cons in Hnd as [Hx Hnd].
  destruct He as [<- | He], Hb as [<- | Hb]; try done.
  - exfalso. apply Hx. rewrite Heq. apply list_elem_of_In. by apply in_map.
  - exfalso. apply Hx. rewrite <- Heq. apply list_elem_of_In. by apply in_map.
  - by apply IH.
Qed.

(** X6. When no two entries share an address, the result does not depend
    on the order of the entries: lookup in a permutation of the map gives
    the same entry, so the lookup itself does not need a sorted map. *)
Theorem findCubeLocation_permutation sm sm' pc :
  NoDup (List.map addr sm) -> Permutation sm sm' ->
  findCubeLocation sm' pc = findCubeLocation sm pc.
Proof.
  intros Hnd Hperm.
  destruct (findCubeLocation sm pc) as [b |] eqn:Hb.
  - apply findCubeLocation_is_floor in Hb as (Hin & Hle & Hmax).
    destruct (findCubeLocation sm' pc) as [b' |] eqn:Hb'.
    + apply findCubeLocation_is_floor in Hb' as (Hin' & Hle' & Hmax').
      f_equal. apply (addr_unique sm); [done | | done |].
      * by apply (Permutation_in _ (Permutation_sym Hperm)).
      * apply Z.le_antisymm.
        -- apply Hmax; [| done]. by apply (Permutation_in _ (Permutation_sym Hperm)).
        -- apply Hmax'; [| done]. by apply (Permutation_in _ Hperm).
    + apply findCubeLocation_none in Hb'. rewrite Forall_forall in Hb'.
      apply (Permutation_in _ Hperm), list_elem_of_In, Hb' in Hin. lia.
  - apply findCubeLocation_none. apply findCubeLocation_none in Hb.
    by rewrite <- Hperm.
Qed.

Lemma findCubeLocation_permutation_witness :
  findCubeLocation [mkEntry 9 "c" 3; mkEntry 0 "a" 1; mkEntry 4 "b" 2] 7
    = findCubeLocation [mkEntry 0 "a" 1; mkEntry 4 "b" 2; mkEntry 9 "c" 3] 7.
Proof.
  apply findCubeLocation_permutation.
  - apply (bool_decide_unpack _). vm_compute. exact I.
  - apply Permutation_sym, (Permutation_cons_append [_; _]).
Defined.

(** X7. The lookup is monotone in the query address: if it finds an
    entry for [pc], it finds one for every later address, and that one
    is not at a lower address. *)
Theorem findCubeLocation_monotone sm pc pc' b :
  pc <= pc' -> findCubeLocation sm pc = Some b ->
  exists b', findCubeLocation sm pc' = Some b' /\ addr b <= addr b'.
Proof.
  intros Hpc Hb. apply findCubeLocation_is_floor in Hb as (Hin & Hle & _).
  destruct (findCubeLocation sm pc') as [b' |] eqn:Hb'.
  - exists b'. split; [done |].
    apply findCubeLocation_is_floor in Hb' as (_ & _ & Hmax). apply Hmax; [done | lia].
  - apply findCubeLocation_none in Hb'. rewrite Forall_forall in Hb'.
    apply list_elem_of_In, Hb' in Hin. lia.
Qed.

Lemma findCubeLocation_monotone_witness :
  exists b', findCubeLocation [mkEntry 0 "a" 1; mkEntry 4 "b" 2] 5 = Some b' /\
    addr (mkEntry 0 "a" 1) <= addr b'.
Proof.
  apply (findCubeLocation_monotone _ 2 5); [lia | reflexivity].
Defined.

(** X8. Appending an entry to a source map leaves the lookups below the
    new address as they were, and from the new address on the new entry
    is found when its address is above all earlier ones. *)
Theorem findCubeLocation_append sm e pc :
  (pc < addr e -> findCubeLocation (sm ++ [e]) pc = findCubeLocation sm pc) /\
  (addr e <= pc -> Forall (fun x => addr x < addr e) sm ->
   findCubeLocation (sm ++ [e]) pc = Some e).
Proof.
  rewrite findCubeLocation_snoc. split.
  - intros Hlt. unfold findCubeLocation_step.
    destruct (Z.leb_spec (addr e) pc); [lia | done].
  - intros Hle Hsm.
    destruct (step_cases pc (findCubeLocation sm pc) e)
      as [(_ & _ & ->) | (Hskip & _)]; [done |].
    destruct Hskip as [? | (b0 & Hb0 & Hge)]; [lia |].
    apply findCubeLocation_is_floor in Hb0 as (Hin & _ & _).
    rewrite Forall_forall in Hsm. apply list_elem_of_In, Hsm in Hin. lia.
Qed.

Lemma findCubeLocation_append_witness :
  findCubeLocation ([mkEntry 0 "a" 1] ++ [mkEntry 4 "b" 2]) 3
    = findCubeLocation [mkEntry 0 "a" 1] 3 /\
  findCubeLocation ([mkEntry 0 "a" 1] ++ [mkEntry 4 "b" 2]) 6
    = Some (mkEntry 4 "b" 2).
Proof.
  split.
  - apply (proj1 (findCubeLocation_append _ _ _)). simpl. lia.
  - apply (proj2 (findCubeLocation_append _ _ _)); [simpl; lia |].
    repeat constructor; simpl; lia.
Defined.

End FindCubeLocationMore.

(** ** urlSource.ts *)

Section UrlSourceMore.
Import UrlSource UrlSharing.

Implicit Types (data s str : list Z) (c : Z) (bytes : list byte).

(** Induction over a list four elements at a time, as [b64_decode]
    consumes it. *)
Lemma quads_ind (P : list Z -> Prop) :
  P [] -> (forall a, P [a]) -> (forall a b, P [a; b]) ->
  (forall a b c, P [a; b; c]) ->
  (forall a b c d rest, P rest -> P (a :: b :: c :: d :: rest)) ->
  forall l, P l.
Proof.
  intros H0 H1 H2 H3 H4.
  fix IH 1. intros [| a [| b [| c [| d rest]]]];
    [exact H0 | apply H1 | apply H2 | apply H3 | apply H4, IH].
Qed.

Lemma b64_body_size data :
  Z.of_nat (length (b64_body data)) = (4 * Z.of_nat (length data) + 2) / 3.
Proof.
  induction data as [| a | a b | a b c rest IH] using triples_ind; try done.
  cbn [b64_body length]. rewrite !Nat2Z.inj_succ, IH. sextet.
Qed.

Lemma b64_decode_size (sextets : list Z) :
  Z.of_nat (length (b64_decode sextets)) = 3 * Z.of_nat (length sextets) / 4.
Proof.
  induction sextets as [| a | a b | a b c | a b c d rest IH] using quads_ind;
    try done.
  cbn [b64_decode length]. rewrite !Nat2Z.inj_succ, IH. sextet.
Qed.

Lemma url_alphabet_codes s :
  Forall b64_code s ->
  Forall url_code (replace_all 47 95 (replace_all 43 45 s)).
Proof.
  induction 1 as [| c s Hc Hs IH]; [constructor |].
  rewrite !replace_all_cons. constructor; [| exact IH].
  unfold b64_code, url_code in *.
  destruct (Z.eqb_spec c 43) as [-> | ?]; [simpl; lia |]. cbv iota.
  destruct (Z.eqb_spec c 47) as [-> | ?]; lia.
Qed.

Lemma std_alphabet_codes s :
  Forall (fun c => b64_code c \/ url_code c) s ->
  Forall b64_code (replace_all 95 47 (replace_all 45 43 s)).
Proof.
  induction 1 as [| c s Hc Hs IH]; [constructor |].
  rewrite !replace_all_cons. constructor; [| exact IH].
  unfold b64_code, url_code in *.
  destruct (Z.eqb_spec c 45) as [-> | ?]; [simpl; lia |]. cbv iota.
  destruct (Z.eqb_spec c 95) as [-> | ?]; lia.
Qed.

Lemma replace_all_length x y s : length (replace_all x y s) = length s.
Proof. apply length_map. Qed.

Lemma replace_all_absent x y s :
  Forall (fun c => c <> x) s -> replace_all x y s = s.
Proof.
  induction 1 as [| c s Hc Hs IH]; [done |].
  rewrite replace_all_cons, IH. by destruct (Z.eqb_spec c x).
Qed.

(** X9. For every byte array [toBase64url] returns a string of letters,
    digits, [-] and [_] only, without padding, and of length
    ceil(4 n / 3) for [n] bytes. *)
Theorem toBase64url_url_safe bytes :
  exists str,
    toBase64url bytes = Some str /\
    Forall url_code str /\
    Z.of_nat (length str) = (4 * Z.of_nat (length bytes) + 2) / 3.
Proof.
  eexists. split; [apply toBase64url_body |]. split.
  - apply url_alphabet_codes, b64_body_codes, fromCharCode_octets.
  - by rewrite !replace_all_length, b64_body_size, length_map.
Qed.

(** What the padding loop appends. *)
Lemma add_padding_cases s :
  (Z.of_nat (length s) mod 4 = 0 /\ add_padding s = s) \/
  (Z.of_nat (length s) mod 4 = 1 /\ add_padding s = s ++ [pad; pad; pad]) \/
  (Z.of_nat (length s) mod 4 = 2 /\ add_padding s = s ++ [pad; pad]) \/
  (Z.of_nat (length s) mod 4 = 3 /\ add_padding s = s ++ [pad]).
Proof.
  pose proof (Z.mod_pos_bound (Z.of_nat (length s)) 4 eq_refl) as Hs.
  assert (Z.of_nat (length s) mod 4 = 0 \/ Z.of_nat (length s) mod 4 = 1 \/
          Z.of_nat (length s) mod 4 = 2 \/ Z.of_nat (length s) mod 4 = 3)
    as [Hl | [Hl | [Hl | Hl]]] by lia;
    [left | right; left | right; right; left | right; right; right];
    (split; [done |]); unfold add_padding; simpl; rewrite Hl; simpl.
  - done.
  - rewrite length_snoc_mod, Hl. simpl.
    rewrite length_snoc_mod, length_snoc_mod, Hl. simpl.
    by rewrite <- !app_assoc.
  - rewrite length_snoc_mod, Hl. simpl.
    rewrite length_snoc_mod, length_snoc_mod, Hl. simpl.
    by rewrite <- app_assoc.
  - by rewrite length_snoc_mod, Hl.
Qed.

Lemma in_remove_padding c s : In c s -> c <> pad -> In c (remove_padding s).
Proof.
  intros Hc Hne. unfold remove_padding.
  destruct (Z.of_nat (length s) mod 4 =? 0); [| done].
  destruct (rev s) as [| c1 [| c2 r]] eqn:Hr; [done | |].
  - destruct (Z.eqb_spec c1 pad) as [-> |]; [| done].
    apply in_rev in Hc. rewrite Hr in Hc. by destruct Hc as [<- | []].
  - destruct (Z.eqb_spec c1 pad) as [-> |]; [| done].
    apply in_rev in Hc. rewrite Hr in Hc.
    destruct Hc as [<- | Hc]; [done |].
    destruct (Z.eqb_spec c2 pad) as [-> |].
    + destruct Hc as [<- | Hc]; [done |]. by apply in_rev in Hc.
    + by apply in_rev in Hc.
Qed.

Lemma b64_indices_invalid c s :
  In c s -> b64_index c = None -> b64_indices s = None.
Proof.
  intros Hc Hnone. induction s as [| x s IH]; [done |].
  cbn [b64_indices]. destruct Hc as [-> | Hc].
  - by rewrite Hnone.
  - rewrite (IH Hc). by destruct (b64_index x).
Qed.

Lemma atob_invalid c s :
  In c s -> b64_index c = None -> is_ascii_whitespace c = false -> c <> pad ->
  atob s = None.
Proof.
  intros Hc Hnone Hws Hne. unfold atob.
  destruct (_ =? 1); [done |].
  rewrite (b64_indices_invalid c); [done | | done].
  apply in_remove_padding; [| done].
  apply filter_In. split; [done |]. by rewrite Hws.
Qed.

Lemma in_add_padding c s : In c s -> In c (add_padding s).
Proof.
  intros Hc.
  destruct (add_padding_cases s) as [[_ ->] | [[_ ->] | [[_ ->] | [_ ->]]]];
    [done | | |]; apply in_or_app; by left.
Qed.

(** X10. A string with a character that is neither in the base64
    alphabet, nor [-], [_], [=] or ASCII white space makes
    [fromBase64url] throw; [decodeSource], which catches the exception,
    and [readUrlSource] on such a parameter then return [null], whatever
    the decompression stream is. *)
Theorem fromBase64url_rejects str c :
  In c str -> b64_index c = None -> c <> 45 -> c <> 95 ->
  is_ascii_whitespace c = false -> c <> pad ->
  fromBase64url str = None /\
  forall decode inflate,
    decodeSource decode inflate str = None /\
    readUrlSource decode inflate (Some str) = None.
Proof.
  intros Hc Hnone H45 H95 Hws Hne.
  assert (fromBase64url str = None) as Hfail.
  { unfold fromBase64url. rewrite (atob_invalid c); try done.
    apply in_add_padding. unfold replace_all.
    apply in_map_iff. exists c. split.
    - by destruct (Z.eqb_spec c 95).
    - apply in_map_iff. exists c. split; [| done]. by destruct (Z.eqb_spec c 45). }
  split; [done |]. intros decode inflate.
  assert (decodeSource decode inflate str = None) as Hnull
    by (unfold decodeSource; by rewrite Hfail).
  split; [done |]. unfold readUrlSource. by destruct str.
Qed.

Lemma fromBase64url_rejects_witness :
  fromBase64url [84; 87; 33; 117] = None.
Proof.
  apply (fromBase64url_rejects [84; 87; 33; 117] 33).
  - right. right. left. reflexivity.
  - reflexivity.
  - lia.
  - lia.
  - reflexivity.
  - unfold pad. lia.
Defined.

Lemma b64_code_no_pad s :
  Forall b64_code s -> Forall (fun c => c <> pad) s.
Proof.
  intros Hs. eapply Forall_impl; [exact Hs |].
  unfold b64_code, pad. simpl. lia.
Qed.

(** The padding that [add_padding] appended is what [atob] removes,
    when there are at most two [=]. *)
Lemma remove_padding_padded s (k : nat) :
  Forall (fun c => c <> pad) s ->
  (Z.of_nat (length s) mod 4 = 0 /\ k = 0%nat) \/
  (Z.of_nat (length s) mod 4 = 2 /\ k = 2%nat) \/
  (Z.of_nat (length s) mod 4 = 3 /\ k = 1%nat) ->
  remove_padding (s ++ repeat pad k) = s.
Proof.
  intros Hnp Hk. apply rev_last_no_pad in Hnp. unfold remove_padding.
  destruct Hk as [[Hl ->] | [[Hl ->] | [Hl ->]]].
  - cbn [repeat]. rewrite app_nil_r, Hl. cbn [Z.eqb].
    destruct (rev s) as [| c1 [| c2 r]]; [done | |];
      by destruct (Z.eqb_spec c1 pad).
  - change (repeat pad 2) with ([pad] ++ [pad]).
    rewrite app_assoc, !length_snoc_mod, Hl.
    cbn [Z.eqb Z.add Z.modulo Z.div_eucl Z.pos_div_eucl].
    rewrite !rev_app_distr. cbn [rev app]. rewrite Z.eqb_refl.
    apply rev_involutive.
  - cbn [repeat]. rewrite length_snoc_mod, Hl.
    cbn [Z.eqb Z.add Z.modulo Z.div_eucl Z.pos_div_eucl].
    rewrite rev_app_distr. cbn [rev app].
    destruct (rev s) as [| c2 r] eqn:Hr.
    + rewrite Hnp in Hl. discriminate.
    + rewrite !Z.eqb_refl. destruct (Z.eqb_spec c2 pad); [done |].
      change (rev r ++ [c2]) with (rev (c2 :: r)).
      by rewrite <- Hr, rev_involutive.
Qed.

Lemma b64_indices_total s :
  Forall b64_code s ->
  exists sextets, b64_indices s = Some sextets /\ length sextets = length s.
Proof.
  induction 1 as [| c s Hc Hs (ss & Hss & Hlen)]; [by exists [] |].
  cbn [b64_indices]. rewrite Hss.
  assert (exists v, b64_index c = Some v) as [v ->].
  { unfold b64_code in Hc. unfold b64_index.
    repeat match goal with
           | |- context [?x <=? ?y] => destruct (Z.leb_spec x y)
           | |- context [?x =? ?y] => destruct (Z.eqb_spec x y)
           end; simpl; try (by eexists); lia. }
  exists (v :: ss). split; [done |]. simpl. by rewrite Hlen.
Qed.

Lemma b64_indices_pad s : b64_indices (s ++ [pad]) = None.
Proof.
  apply (b64_indices_invalid pad); [| done]. apply in_or_app. right. by left.
Qed.

(** [atob] on a string of alphabet characters padded by [add_padding]. *)
Lemma atob_add_padding s :
  Forall b64_code s ->
  (Z.of_nat (length s) mod 4 = 1 -> atob (add_padding s) = None) /\
  (Z.of_nat (length s) mod 4 <> 1 ->
   exists sextets,
     b64_indices s = Some sextets /\ length sextets = length s /\
     atob (add_padding s) = Some (b64_decode sextets)).
Proof.
  intros Hs. pose proof (b64_code_no_pad s Hs) as Hnp.
  destruct (add_padding_cases s) as [[Hl ->] | [[Hl ->] | [[Hl ->] | [Hl ->]]]];
    (split; [intros H1 | intros H1]; try lia).
  - destruct (b64_indices_total s Hs) as (ss & Hss & Hlen). exists ss.
    repeat split; [done | done |]. unfold atob.
    pose proof (filter_whitespace_encoded s 0 Hs) as Hf.
    pose proof (remove_padding_padded s 0 Hnp) as Hr.
    cbn [repeat] in Hf, Hr. rewrite app_nil_r in Hf, Hr.
    rewrite Hf, Hr by auto. rewrite Hl, Hss. done.
  - unfold atob. change [pad; pad; pad] with (repeat pad 3).
    rewrite (filter_whitespace_encoded s 3 Hs).
    assert (remove_padding (s ++ repeat pad 3) = s ++ [pad]) as ->.
    { unfold remove_padding.
      change (repeat pad 3) with ([pad] ++ [pad] ++ [pad]).
      rewrite !app_assoc, !length_snoc_mod, Hl.
      cbn [Z.eqb Z.add Z.modulo Z.div_eucl Z.pos_div_eucl].
      rewrite !rev_app_distr. cbn [rev app]. rewrite !Z.eqb_refl.
      cbn [rev app]. by rewrite rev_involutive. }
    rewrite length_snoc_mod, Hl, b64_indices_pad. done.
  - destruct (b64_indices_total s Hs) as (ss & Hss & Hlen). exists ss.
    repeat split; [done | done |]. unfold atob.
    change [pad; pad] with (repeat pad 2).
    rewrite (filter_whitespace_encoded s 2 Hs).
    rewrite (remove_padding_padded s 2) by auto.
    rewrite Hl, Hss. done.
  - destruct (b64_indices_total s Hs) as (ss & Hss & Hlen). exists ss.
    repeat split; [done | done |]. unfold atob.
    change [pad] with (repeat pad 1).
    rewrite (filter_whitespace_encoded s 1 Hs).
    rewrite (remove_padding_padded s 1) by auto.
    rewrite Hl, Hss. done.
Qed.

(** X11. On a string of characters of the base64 or base64url alphabet,
    [fromBase64url] throws when the length is 1 modulo 4 and returns
    floor(3 n / 4) bytes for every other length [n]. *)
Theorem fromBase64url_lengths str :
  Forall (fun c => b64_code c \/ url_code c) str ->
  (Z.of_nat (length str) mod 4 = 1 -> fromBase64url str = None) /\
  (Z.of_nat (length str) mod 4 <> 1 ->
   exists bytes,
     fromBase64url str = Some bytes /\
     Z.of_nat (length bytes) = 3 * Z.of_nat (length str) / 4).
Proof.
  intros Hstr. apply std_alphabet_codes in Hstr.
  destruct (atob_add_padding _ Hstr) as [Hbad Hgood].
  rewrite !replace_all_length in Hbad, Hgood.
  unfold fromBase64url. split.
  - intros Hl. by rewrite Hbad.
  - intros Hl. destruct (Hgood Hl) as (ss & _ & Hlen & ->).
    eexists. split; [done |].
    by rewrite length_map, b64_decode_size, Hlen.
Qed.

Lemma fromBase64url_lengths_witness :
  exists bytes,
    fromBase64url [45; 95; 56] = Some bytes /\
    Z.of_nat (length bytes) = 3 * Z.of_nat (length [45; 95; 56]) / 4.
Proof.
  apply (fromBase64url_lengths [45; 95; 56]).
  - repeat constructor; unfold b64_code, url_code; lia.
  - simpl. discriminate.
Defined.

(** X12. [fromBase64url] also reads what [btoa] writes: the standard
    alphabet with its padding gives the bytes back. *)
Theorem fromBase64url_btoa bytes :
  exists b64,
    btoa (List.map fromCharCode bytes) = Some b64 /\
    fromBase64url b64 = Some bytes.
Proof.
  pose proof (fromCharCode_octets bytes) as Hd.
  eexists. split; [by apply btoa_octets |].
  unfold fromBase64url. rewrite b64_encode_split.
  pose proof (b64_body_codes _ Hd) as Hcodes.
  assert (forall x y, x = 45 \/ x = 95 ->
    replace_all x y (b64_body (List.map fromCharCode bytes)
                       ++ repeat pad (pad_count (List.map fromCharCode bytes)))
    = b64_body (List.map fromCharCode bytes)
        ++ repeat pad (pad_count (List.map fromCharCode bytes))) as Hsame.
  { intros x y Hx. apply replace_all_absent, Forall_app. split.
    - eapply Forall_impl; [exact Hcodes |]. unfold b64_code. simpl. lia.
    - apply Forall_forall. intros c Hc.
      apply list_elem_of_In, repeat_spec in Hc as ->. unfold pad. lia. }
  rewrite !Hsame by auto.
  assert (add_padding (b64_body (List.map fromCharCode bytes)
                         ++ repeat pad (pad_count (List.map fromCharCode bytes)))
          = b64_body (List.map fromCharCode bytes)
              ++ repeat pad (pad_count (List.map fromCharCode bytes))) as ->.
  { rewrite <- add_padding_body.
    destruct (add_padding_cases (add_padding (b64_body (List.map fromCharCode bytes))))
      as [[_ ->] | [[Hl _] | [[Hl _] | [Hl _]]]]; [done | | |];
      rewrite add_padding_exits in Hl; discriminate. }
  rewrite atob_encoded by done. by rewrite toUint8_fromCharCode.
Qed.

Lemma fromBase64url_url_body bytes :
  fromBase64url (replace_all 47 95 (replace_all 43 45
                   (b64_body (List.map fromCharCode bytes)))) = Some bytes.
Proof.
  unfold fromBase64url.
  rewrite url_alphabet_back by apply b64_body_codes, fromCharCode_octets.
  rewrite add_padding_body, atob_encoded by apply fromCharCode_octets.
  by rewrite toUint8_fromCharCode.
Qed.

(** X23. [toBase64url] is injective: two byte arrays with the same
    encoding are the same array. *)
Theorem toBase64url_injective bytes1 bytes2 :
  toBase64url bytes1 = toBase64url bytes2 -> bytes1 = bytes2.
Proof.
  rewrite !toBase64url_body. intros [= Heq].
  pose proof (fromBase64url_url_body bytes1) as H1.
  rewrite Heq, fromBase64url_url_body in H1. by injection H1.
Qed.

Lemma toBase64url_injective_witness : [xfb; xff] = [xfb; xff].
Proof.
  apply (toBase64url_injective [xfb; xff] [xfb; xff]). reflexivity.
Defined.

Lemma assemble_concat (chunks : list (list byte)) : assemble chunks = concat chunks.
Proof.
  unfold assemble.
  assert (forall acc, fold_left (fun result chunk => result ++ chunk) chunks acc
                      = acc ++ concat chunks) as H; [| apply H].
  induction chunks as [| ch chunks IH]; intros acc; simpl.
  - by rewrite app_nil_r.
  - by rewrite IH, app_assoc.
Qed.

(** X13. When the decompression stream gives back what the compression
    stream was fed, and the text decoder gives back the source from its
    encoding, [decodeSource] returns the source from what
    [encodeSource] returns, whatever the chunking of the streams. *)
Theorem decodeSource_encodeSource
    (encode : jsstring -> list byte) (decode : list byte -> jsstring)
    (deflate : list byte -> list (list byte))
    (inflate : list byte -> option (list (list byte))) (source : jsstring) :
  (forall input, exists chunks,
     inflate (concat (deflate input)) = Some chunks /\ concat chunks = input) ->
  decode (encode source) = source ->
  exists encoded,
    encodeSource encode deflate source = Some encoded /\
    decodeSource decode inflate encoded = Some source.
Proof.
  intros Hinflate Hdecode. unfold encodeSource, decodeSource.
  eexists. split; [apply toBase64url_body |].
  rewrite fromBase64url_url_body, assemble_concat.
  destruct (Hinflate (encode source)) as (chunks & -> & Hchunks).
  by rewrite assemble_concat, Hchunks, Hdecode.
Qed.

Lemma decodeSource_encodeSource_witness :
  exists encoded,
    encodeSource (List.map toUint8) (fun b => firstn 1 b :: [skipn 1 b]) [72; 105]
      = Some encoded /\
    decodeSource (List.map fromCharCode) (fun b => Some [b]) encoded
      = Some [72; 105].
Proof.
  apply (decodeSource_encodeSource (List.map toUint8) (List.map fromCharCode)
           (fun b => firstn 1 b :: [skipn 1 b]) (fun b => Some [b]) [72; 105]).
  - intros input. exists [input]. simpl. rewrite !app_nil_r.
    by rewrite firstn_skipn.
  - reflexivity.
Defined.

End UrlSourceMore.

(** ** layoutEngine.ts *)

Section SceneGraphFiltering.
Import LayoutEngine.

Context {num : Type} (sub : num -> num -> num).

Implicit Types (nodes l : list (SceneNode num)) (n : SceneNode num)
  (ids : gset string) (st : gset string * bool) (x rootId : string).

Lemma has_truthy_spec ids (o : option string) :
  has_truthy ids o = true <->
  exists p, o = Some p /\ p <> EmptyString /\ p ∈ ids.
Proof.
  unfold has_truthy. split.
  - destruct o as [[| c p] |]; try done.
    intros H. apply bool_decide_eq_true in H. by exists (String c p).
  - intros (p & -> & Hne & Hin). destruct p; [done |].
    by apply bool_decide_eq_true.
Qed.

Lemma descend_step_cases st n :
  (has_truthy (fst st) (parentId n) = true /\ (id n ∉ fst st) /\
     descend_step st n = ({[id n]} ∪ fst st, true)) \/
  ((has_truthy (fst st) (parentId n) = true -> id n ∈ fst st) /\
     descend_step st n = st).
Proof.
  unfold descend_step.
  destruct (has_truthy (fst st) (parentId n)); simpl.
  - destruct (decide (id n ∈ fst st)) as [Hin | Hout].
    + right. by rewrite bool_decide_eq_true_2.
    + left. by rewrite bool_decide_eq_false_2.
  - right. split; [done | done].
Qed.

(** What a run of the inner loop does to the set and the flag. *)
Lemma descend_fold l st :
  let st' := fold_left descend_step l st in
  fst st ⊆ fst st' /\
  (snd st = true -> snd st' = true) /\
  (snd st' = false ->
     st' = st /\
     forall n, In n l -> has_truthy (fst st) (parentId n) = true -> id n ∈ fst st) /\
  (forall x, x ∈ fst st' -> x ∈ fst st \/ exists n, In n l /\ id n = x) /\
  (snd st = false -> snd st' = true -> exists x, x ∈ fst st' /\ x ∉ fst st).
Proof.
  revert st. induction l as [| n l IH]; intros st; simpl.
  - split; [done |]. split; [done |]. split; [done |]. split; [by left |].
    intros H1 H2. congruence.
  - destruct (IH (descend_step st n)) as (Hsub & Hflag & Hstable & Horigin & Hnew).
    destruct (descend_step_cases st n) as [(Htr & Hout & Hstep) | (Hno & Hstep)];
      rewrite Hstep in *; cbn [fst snd] in *.
    + split; [etrans; [apply union_subseteq_r | exact Hsub] |].
      split; [by intros _; apply Hflag |].
      split; [intros Hf; rewrite Hflag in Hf by done; discriminate |].
      split.
      * intros x Hx. destruct (Horigin x Hx) as [Hx' | (n' & Hn' & <-)].
        -- apply elem_of_union in Hx' as [Hx' | Hx']; [| by left].
           apply elem_of_singleton in Hx' as ->. right. exists n. split; [by left | done].
        -- right. exists n'. split; [by right | done].
      * intros _ _. exists (id n). split; [| done].
        apply Hsub, elem_of_union. left. by apply elem_of_singleton.
    + split; [done |]. split; [done |]. split; [| split; [| done]].
      * intros Hf. destruct (Hstable Hf) as [Heq Hall]. split; [done |].
        intros n' [<- | Hn'] Htr; [by apply Hno | by apply Hall].
      * intros x Hx. destruct (Horigin x Hx) as [Hx' | (n' & Hn' & <-)]; [by left |].
        right. exists n'. split; [by right | done].
Qed.

Lemma descend_pass_eta nodes ids :
  descend_pass nodes ids = (fst (descend_pass nodes ids), snd (descend_pass nodes ids)).
Proof. by destruct (descend_pass nodes ids). Qed.

Lemma descend_loop_mono (fuel : nat) nodes ids :
  ids ⊆ descend_loop fuel nodes ids.
Proof.
  revert ids. induction fuel as [| fuel IH]; intros ids; simpl; [done |].
  destruct (descend_fold nodes (ids, false)) as (Hsub & _).
  fold (descend_pass nodes ids) in Hsub. cbn [fst] in Hsub.
  destruct (snd (descend_pass nodes ids)); [| done].
  etrans; [exact Hsub | apply IH].
Qed.

(** Every id the loop puts into the set is reachable from the root. *)
Lemma descend_fold_sound nodes rootId l st :
  (forall n, In n l -> In n nodes) ->
  (forall x, x ∈ fst st -> descendant nodes rootId x) ->
  forall x, x ∈ fst (fold_left descend_step l st) -> descendant nodes rootId x.
Proof.
  revert st. induction l as [| n l IH]; intros st Hl Hst; [done |].
  simpl. apply IH; [by intros n' Hn'; apply Hl; right |].
  destruct (descend_step_cases st n) as [(Htr & _ & ->) | (_ & ->)]; [| done].
  cbn [fst]. intros x Hx. apply elem_of_union in Hx as [Hx | Hx]; [| by apply Hst].
  apply elem_of_singleton in Hx as ->.
  apply has_truthy_spec in Htr as (p & Hp & Hne & Hin).
  apply (descendant_child _ _ _ n p); [apply Hl; by left | done | done | by apply Hst].
Qed.

Lemma descend_loop_sound (fuel : nat) nodes rootId ids :
  (forall x, x ∈ ids -> descendant nodes rootId x) ->
  forall x, x ∈ descend_loop fuel nodes ids -> descendant nodes rootId x.
Proof.
  revert ids. induction fuel as [| fuel IH]; intros ids Hids; simpl; [done |].
  assert (forall x, x ∈ fst (descend_pass nodes ids) -> descendant nodes rootId x)
    as Hpass by (by apply descend_fold_sound).
  destruct (snd (descend_pass nodes ids)); [by apply IH | done].
Qed.

(** With more fuel than there are node ids outside the set, the loop
    ends because a pass adds nothing. *)
Lemma descend_loop_exits (fuel : nat) nodes ids :
  (stdpp.base.size (list_to_set (List.map id nodes) ∖ ids : gset string) < fuel)%nat ->
  descend_pass nodes (descend_loop fuel nodes ids)
    = (descend_loop fuel nodes ids, false).
Proof.
  revert ids. induction fuel as [| fuel IH]; intros ids Hsize; [lia |].
  simpl.
  destruct (descend_fold nodes (ids, false))
    as (Hsub & _ & Hstable & Horigin & Hnew).
  fold (descend_pass nodes ids) in *. cbn [fst snd] in *.
  destruct (snd (descend_pass nodes ids)) eqn:Hflag.
  - apply IH.
    destruct (Hnew eq_refl eq_refl) as (x & Hx & Hout).
    assert (x ∈ (list_to_set (List.map id nodes) : gset string)) as HxN.
    { destruct (Horigin x Hx) as [? | (n & Hn & <-)]; [done |].
      apply elem_of_list_to_set, list_elem_of_In. by apply in_map. }
    assert ((list_to_set (List.map id nodes) ∖ fst (descend_pass nodes ids) : gset string)
              ⊂ list_to_set (List.map id nodes) ∖ ids) as Hlt.
    { split.
      - intros y Hy. apply elem_of_difference in Hy as [Hy Hny].
        apply elem_of_difference. split; [done |]. intros Hyi. by apply Hny, Hsub.
      - intros Hback.
        assert (x ∈ (list_to_set (List.map id nodes) ∖ ids : gset string)) as Hxd
          by (by apply elem_of_difference).
        apply Hback, elem_of_difference in Hxd as [_ Hxd]. by apply Hxd. }
    apply subset_size in Hlt. lia.
  - destruct (Hstable eq_refl) as [Heq _].
    rewrite Heq. cbn [fst]. exact Heq.
Qed.

Lemma size_list_to_set_le (l : list string) :
  (stdpp.base.size (list_to_set l : gset string) <= length l)%nat.
Proof.
  induction l as [| x l IH]; cbn [length].
  - by rewrite list_to_set_nil, size_empty.
  - rewrite list_to_set_cons, size_union_alt, size_singleton.
    pose proof (subseteq_size (list_to_set l ∖ {[x]}) (list_to_set l : gset string))
      as Hle.
    assert ((list_to_set l ∖ {[x]} : gset string) ⊆ list_to_set l) as Hsub
      by (intros y Hy; by apply elem_of_difference in Hy as [Hy _]).
    specialize (Hle Hsub). lia.
Qed.

Lemma getDescendantIds_exits nodes rootId :
  descend_pass nodes (getDescendantIds nodes rootId)
    = (getDescendantIds nodes rootId, false).
Proof.
  apply descend_loop_exits.
  pose proof (size_list_to_set_le (List.map id nodes)) as Hle.
  rewrite length_map in Hle.
  pose proof (subseteq_size
    (list_to_set (List.map id nodes) ∖ {[rootId]} : gset string)
    (list_to_set (List.map id nodes))) as Hsub.
  assert ((list_to_set (List.map id nodes) ∖ {[rootId]} : gset string)
            ⊆ list_to_set (List.map id nodes)) as Hd
    by (intros y Hy; by apply elem_of_difference in Hy as [Hy _]).
  specialize (Hsub Hd). lia.
Qed.

Lemma getDescendantIds_spec nodes rootId x :
  x ∈ getDescendantIds nodes rootId <-> descendant nodes rootId x.
Proof.
  split.
  - apply descend_loop_sound. intros y Hy.
    apply elem_of_singleton in Hy as ->. constructor.
  - induction 1 as [| n p Hn Hp Hne Hdesc IH].
    + apply descend_loop_mono. by apply elem_of_singleton.
    + pose proof (getDescendantIds_exits nodes rootId) as Hexit.
      destruct (descend_fold nodes (getDescendantIds nodes rootId, false))
        as (_ & _ & Hstable & _).
      fold (descend_pass nodes (getDescendantIds nodes rootId)) in Hstable.
      rewrite Hexit in Hstable. destruct (Hstable eq_refl) as [_ Hclosed].
      apply (Hclosed n Hn). apply has_truthy_spec. by exists p.
Qed.

(** X14. [getDescendantIds] returns exactly the ids reachable from the
    root through [parentId] links of the listed nodes (an empty
    [parentId] is no link), and its loop has ended by itself: one more
    pass over the nodes adds nothing to the returned set. *)
Theorem getDescendantIds_closure nodes rootId :
  (forall x, x ∈ getDescendantIds nodes rootId <-> descendant nodes rootId x) /\
  descend_pass nodes (getDescendantIds nodes rootId)
    = (getDescendantIds nodes rootId, false).
Proof.
  split; [apply getDescendantIds_spec | apply getDescendantIds_exits].
Qed.

Lemma recenter_node_id o n : id (recenter_node sub o n) = id n.
Proof. reflexivity. Qed.

Lemma filterSceneGraph_node_in (sg : SceneGraph num) focusId n :
  In n (nodes (filterSceneGraph sub sg focusId)) ->
  exists n0, In n0 (nodes sg) /\ id n0 ∈ getDescendantIds (nodes sg) focusId /\
    id n = id n0 /\ parentId n = parentId n0 /\ label n = label n0 /\
    type n = type n0 /\ size n = size n0 /\ color n = color n0.
Proof.
  unfold filterSceneGraph.
  destruct (List.find _ (nodes sg)) as [focusNode |]; cbn [nodes].
  - intros Hn. apply in_map_iff in Hn as (n0 & <- & Hn0).
    apply filter_In in Hn0 as [Hn0 Hid]. apply bool_decide_eq_true in Hid.
    exists n0. by repeat split.
  - intros Hn. apply filter_In in Hn as [Hn Hid]. apply bool_decide_eq_true in Hid.
    exists n. by repeat split.
Qed.

Lemma filterSceneGraph_node_kept (sg : SceneGraph num) focusId n0 :
  In n0 (nodes sg) -> id n0 ∈ getDescendantIds (nodes sg) focusId ->
  exists n, In n (nodes (filterSceneGraph sub sg focusId)) /\ id n = id n0.
Proof.
  intros Hn0 Hid. unfold filterSceneGraph.
  assert (In n0 (List.filter
            (fun n => bool_decide (id n ∈ getDescendantIds (nodes sg) focusId))
            (nodes sg))) as Hf
    by (apply filter_In; split; [done | by apply bool_decide_eq_true]).
  destruct (List.find _ (nodes sg)) as [focusNode |]; cbn [nodes].
  - exists (recenter_node sub (position focusNode) n0). split; [| done].
    by apply in_map.
  - by exists n0.
Qed.

(** X15. The nodes of the filtered scene graph are the nodes of the
    graph whose id is reachable from the focused id: a node is kept,
    with its id, label, type, size, colour and parent, exactly when its
    id is the focus or a descendant of it; the others are dropped. *)
Theorem filterSceneGraph_nodes (sg : SceneGraph num) focusId x :
  (exists n, In n (nodes (filterSceneGraph sub sg focusId)) /\ id n = x) <->
  (exists n0, In n0 (nodes sg) /\ id n0 = x) /\ descendant (nodes sg) focusId x.
Proof.
  split.
  - intros (n & Hn & <-).
    apply filterSceneGraph_node_in in Hn as (n0 & Hn0 & Hid & -> & _).
    split; [by exists n0 | by apply getDescendantIds_spec].
  - intros [(n0 & Hn0 & <-) Hdesc].
    apply filterSceneGraph_node_kept; [done | by apply getDescendantIds_spec].
Qed.

Lemma descendant_inv nodes rootId x :
  descendant nodes rootId x ->
  x = rootId \/
  exists n p, In n nodes /\ id n = x /\ parentId n = Some p /\
    p <> EmptyString /\ descendant nodes rootId p.
Proof.
  destruct 1 as [| n p Hn Hp Hne Hdesc]; [by left |].
  right. by exists n, p.
Qed.

Lemma node_id_unique nodes n n' :
  NoDup (List.map id nodes) -> In n nodes -> In n' nodes -> id n = id n' -> n = n'.
Proof.
  induction nodes as [| m nodes IH]; intros Hnd Hn Hn' Heq; [done |].
  simpl in Hnd. apply NoDup_cons in Hnd as [Hm Hnd].
  destruct Hn as [<- | Hn], Hn' as [<- | Hn']; try done.
  - exfalso. apply Hm. rewrite Heq. apply list_elem_of_In. by apply in_map.
  - exfalso. apply Hm. rewrite <- Heq. apply list_elem_of_In. by apply in_map.
  - by apply IH.
Qed.

(** X16. When the ids of the nodes are pairwise distinct, every node of
    the filtered graph other than the focused one names a parent whose
    id is itself reachable from the focus: filtering keeps, with a
    node, the whole chain of parents up to the focus. *)
Theorem filterSceneGraph_parents (sg : SceneGraph num) focusId n :
  NoDup (List.map id (nodes sg)) ->
  In n (nodes (filterSceneGraph sub sg focusId)) -> id n <> focusId ->
  exists p, parentId n = Some p /\ p <> EmptyString /\
    descendant (nodes sg) focusId p.
Proof.
  intros Hnd Hn Hne.
  apply filterSceneGraph_node_in in Hn as (n0 & Hn0 & Hid & Heq & Hpar & _).
  apply getDescendantIds_spec, descendant_inv in Hid
    as [Hroot | (n1 & p & Hn1 & Hid1 & Hp & Hpne & Hdesc)]; [congruence |].
  assert (n1 = n0) as -> by (by apply (node_id_unique (nodes sg))).
  exists p. by rewrite Hpar.
Qed.

(** X17. A pipe is in the filtered graph exactly when one of its two
    ends names, with a non-empty id, a node id reachable from the
    focus; pipe ids and end ids are kept as they are. *)
Theorem filterSceneGraph_pipes (sg : SceneGraph num) focusId pid f t :
  (exists p, In p (pipes (filterSceneGraph sub sg focusId)) /\
     pipe_id p = pid /\ fromNodeId p = f /\ toNodeId p = t) <->
  (exists p0, In p0 (pipes sg) /\
     pipe_id p0 = pid /\ fromNodeId p0 = f /\ toNodeId p0 = t) /\
  ((exists i, f = Some i /\ i <> EmptyString /\ descendant (nodes sg) focusId i) \/
   (exists i, t = Some i /\ i <> EmptyString /\ descendant (nodes sg) focusId i)).
Proof.
  assert (forall o : option string,
    has_truthy (getDescendantIds (nodes sg) focusId) o = true <->
    exists i, o = Some i /\ i <> EmptyString /\ descendant (nodes sg) focusId i)
    as Htruthy.
  { intros o. rewrite has_truthy_spec. split.
    - intros (i & ? & ? & Hi). exists i. by rewrite <- getDescendantIds_spec.
    - intros (i & ? & ? & Hi). exists i. by rewrite getDescendantIds_spec. }
  unfold filterSceneGraph. split.
  - intros (p & Hp & <- & <- & <-).
    assert (exists p0, In p0 (pipes sg) /\
              (has_truthy (getDescendantIds (nodes sg) focusId) (fromNodeId p0)
               || has_truthy (getDescendantIds (nodes sg) focusId) (toNodeId p0)) = true /\
              pipe_id p = pipe_id p0 /\ fromNodeId p = fromNodeId p0 /\
              toNodeId p = toNodeId p0) as (p0 & Hp0 & Hkeep & -> & -> & ->).
    { destruct (List.find _ (nodes sg)) as [focusNode |]; cbn [pipes] in Hp.
      - apply in_map_iff in Hp as (p0 & <- & Hp0).
        apply filter_In in Hp0 as [Hp0 Hkeep]. by exists p0.
      - apply filter_In in Hp as [Hp Hkeep]. by exists p. }
    split; [by exists p0 |].
    apply orb_true_iff in Hkeep as [Hk | Hk]; [left | right]; by apply Htruthy.
  - intros [(p0 & Hp0 & <- & <- & <-) Hends].
    assert (In p0 (List.filter
              (fun p => has_truthy (getDescendantIds (nodes sg) focusId) (fromNodeId p)
                        || has_truthy (getDescendantIds (nodes sg) focusId) (toNodeId p))
              (pipes sg))) as Hf.
    { apply filter_In. split; [done |]. apply orb_true_iff.
      destruct Hends as [He | He]; [left | right]; by apply Htruthy. }
    destruct (List.find _ (nodes sg)) as [focusNode |]; cbn [pipes].
    + exists (recenter_pipe sub (position focusNode) p0). split; [| done].
      by apply in_map.
    + by exists p0.
Qed.

End SceneGraphFiltering.

Lemma filterSceneGraph_parents_witness :
  exists p,
    LayoutEngine.parentId
      (LayoutEngine.mkSceneNode Z "app_1" LayoutEngine.application "plus"
         (2, 0, 0) (1, 1, 1) "#4488cc" false 1 (Some "def_0"%string) [])
      = Some p /\ p <> EmptyString /\
    LayoutEngine.descendant
      [LayoutEngine.mkSceneNode Z "def_0" LayoutEngine.definition "f"
         (1, 1, 1) (3, 2, 2) "#22aa66" true 0 None [];
       LayoutEngine.mkSceneNode Z "app_1" LayoutEngine.application "plus"
         (3, 1, 1) (1, 1, 1) "#4488cc" false 1 (Some "def_0"%string) []]
      "def_0" p.
Proof.
  apply (filterSceneGraph_parents Z.sub
    (LayoutEngine.mkSceneGraph Z
       [LayoutEngine.mkSceneNode Z "def_0" LayoutEngine.definition "f"
          (1, 1, 1) (3, 2, 2) "#22aa66" true 0 None [];
        LayoutEngine.mkSceneNode Z "app_1" LayoutEngine.application "plus"
          (3, 1, 1) (1, 1, 1) "#4488cc" false 1 (Some "def_0"%string) []]
       [])
    "def_0").
  - apply (bool_decide_unpack _). vm_compute. exact I.
  - vm_compute. right. left. reflexivity.
  - simpl. discriminate.
Defined.

Section NextId.
Import LayoutEngine.

Implicit Types (s p q prefix : string) (x k c : N).

Lemma pretty_N_char_not_underscore x : pretty_N_char x <> "_"%char.
Proof. unfold pretty_N_char. repeat case_match; discriminate. Qed.

Lemma pretty_N_go_no_underscore x s :
  (forall p q, s <> (p +:+ String "_" q)%string) ->
  forall p q, pretty_N_go x s <> (p +:+ String "_" q)%string.
Proof.
  revert s. induction (N.lt_wf_0 x) as [x _ IH]; intros s Hs p q.
  destruct (decide (x = 0%N)) as [-> | Hx].
  - rewrite pretty_N_go_0. apply Hs.
  - rewrite pretty_N_go_step by lia. apply IH.
    + apply N.div_lt; lia.
    + intros [| c p'] q'; simpl.
      * intros [= Hc _]. by apply pretty_N_char_not_underscore in Hc.
      * intros [= _ Hrest]. by apply Hs in Hrest.
Qed.

Lemma pretty_N_no_underscore x p q : pretty x <> (p +:+ String "_" q)%string.
Proof.
  unfold pretty, pretty_N. destruct (decide (x = 0%N)).
  - destruct p as [| c [| c' p']]; simpl; discriminate.
  - apply pretty_N_go_no_underscore. intros [| c p'] q'; simpl; discriminate.
Qed.

(** The text after the last underscore of an id is its counter. *)
Lemma suffix_unique p1 p2 s1 s2 :
  (forall p q, s1 <> (p +:+ String "_" q)%string) ->
  (forall p q, s2 <> (p +:+ String "_" q)%string) ->
  (p1 +:+ String "_" s1)%string = (p2 +:+ String "_" s2)%string -> s1 = s2.
Proof.
  intros H1 H2. revert p2. induction p1 as [| c p1 IH]; intros [| c' p2]; simpl.
  - by intros [= ->].
  - intros [= _ Heq]. by apply H1 in Heq.
  - intros [= _ Heq]. symmetry in Heq. by apply H2 in Heq.
  - intros [= _ Heq]. by apply IH in Heq.
Qed.

Lemma nextId_counter prefix prefix' c c' :
  fst (nextId prefix c) = fst (nextId prefix' c') -> c = c'.
Proof.
  unfold nextId. cbn [fst]. intros Heq.
  apply (inj pretty). eapply suffix_unique; [| | exact Heq];
    intros p q; apply pretty_N_no_underscore.
Qed.

Lemma nextIds_cons prefix prefixes c :
  nextIds (prefix :: prefixes) c =
    (fst (nextId prefix c) :: fst (nextIds prefixes (c + 1)),
     snd (nextIds prefixes (c + 1))).
Proof. simpl. by destruct (nextIds prefixes (c + 1)). Qed.

Lemma nextIds_elem prefixes c i :
  In i (fst (nextIds prefixes c)) ->
  exists prefix k, (c <= k)%N /\ i = fst (nextId prefix k).
Proof.
  revert c. induction prefixes as [| prefix prefixes IH]; intros c; [done |].
  rewrite nextIds_cons. cbn [fst]. intros [<- | Hi].
  - exists prefix, c. split; [lia | done].
  - destruct (IH _ Hi) as (prefix' & k & Hk & ->). exists prefix', k.
    split; [lia | done].
Qed.

(** X18. The ids that successive calls of [nextId] return are pairwise
    distinct, whatever the prefixes, also when a prefix itself contains
    underscores or digits; each call advances the counter by one. *)
Theorem nextIds_distinct (prefixes : list string) c :
  NoDup (fst (nextIds prefixes c)) /\
  snd (nextIds prefixes c) = (c + N.of_nat (length prefixes))%N.
Proof.
  revert c. induction prefixes as [| prefix prefixes IH]; intros c.
  - split; [constructor | simpl; lia].
  - rewrite nextIds_cons. cbn [fst snd]. destruct (IH (c + 1)%N) as [Hnd Hc].
    split.
    + constructor; [| done]. intros Hin. apply list_elem_of_In in Hin.
      destruct (nextIds_elem _ _ _ Hin) as (prefix' & k & Hk & Heq).
      apply nextId_counter in Heq. lia.
    + rewrite Hc. simpl length. lia.
Qed.

End NextId.

(** ** The VGA display panel *)

Section VgaDisplayFacts.
Import VgaDisplay.

Implicit Types (v w value : Z).

Lemma toInt32_small v : - 2 ^ 31 <= v < 2 ^ 31 -> toInt32 v = v.
Proof. unfold toInt32. intros Hv. rewrite Z.mod_small; lia. Qed.

Lemma scale8_quotient x : 0 <= x <= 7 -> scale8 x = x * 255 / 7.
Proof.
  intros Hx. unfold scale8.
  rewrite Z.lor_0_r, Z.quot_div_nonneg by lia.
  apply toInt32_small. sextet.
Qed.

(** Three bits of the 32-bit value of a number are three bits of the
    number. *)
Lemma triple_bits v (k : Z) :
  0 <= k <= 6 ->
  Z.land (Z.shiftr (toInt32 v) k) 0x7 = (v / 2 ^ k) mod 8.
Proof.
  intros Hk. change 0x7 with (Z.ones 3).
  rewrite Z.land_ones, Z.shiftr_div_pow2 by lia. unfold toInt32.
  assert (k = 0 \/ k = 1 \/ k = 2 \/ k = 3 \/ k = 4 \/ k = 5 \/ k = 6)
    as [-> | [-> | [-> | [-> | [-> | [-> | ->]]]]]] by lia;
    change (2 ^ 3) with 8; simpl Z.pow; sextet.
Qed.

Lemma low_bits v : Z.land (toInt32 v) 0x7 = v mod 8.
Proof.
  rewrite <- (Z.shiftr_0_r (toInt32 v)), triple_bits by lia.
  by rewrite Z.pow_0_r, Z.div_1_r.
Qed.

Lemma dacChannels_arith v :
  dacChannels v =
    ((v / 64) mod 8 * 255 / 7, (v / 8) mod 8 * 255 / 7, v mod 8 * 255 / 7).
Proof.
  unfold dacChannels. rewrite !triple_bits, low_bits by lia.
  rewrite !scale8_quotient
    by (match goal with
        | |- 0 <= ?a mod 8 <= 7 => pose proof (Z.mod_pos_bound a 8 eq_refl); lia
        end).
  reflexivity.
Qed.

Lemma mask_low9 v : Z.land (toInt32 v) 0x1FF = v mod 512.
Proof.
  change 0x1FF with (Z.ones 9). rewrite Z.land_ones by lia.
  unfold toInt32. change (2 ^ 9) with 512. simpl Z.pow. sextet.
Qed.

Lemma dacToRgb_mask value :
  dacToRgb (Z.land (toInt32 value) 0x1FF) = dacToRgb value.
Proof.
  unfold dacToRgb. rewrite mask_low9, !dacChannels_arith.
  replace ((value mod 512) / 64 mod 8) with (value / 64 mod 8) by sextet.
  replace ((value mod 512) / 8 mod 8) with (value / 8 mod 8) by sextet.
  replace ((value mod 512) mod 8) with (value mod 8) by sextet.
  reflexivity.
Qed.

(** X19. [dacToRgb] reads the low nine bits of its argument only:
    masking the argument with 0x1FF first, as both drawing loops do,
    changes nothing; and each of the three channels it prints is between
    0 and 255. *)
Theorem dacToRgb_low9 value :
  dacToRgb (Z.land (toInt32 value) 0x1FF) = dacToRgb value /\
  let '(r, g, b) := dacChannels value in
  0 <= r <= 255 /\ 0 <= g <= 255 /\ 0 <= b <= 255.
Proof.
  split.
  - apply dacToRgb_mask.
  - rewrite dacChannels_arith.
    pose proof (Z.mod_pos_bound (value / 64) 8 eq_refl).
    pose proof (Z.mod_pos_bound (value / 8) 8 eq_refl).
    pose proof (Z.mod_pos_bound value 8 eq_refl).
    repeat split; sextet.
Qed.

Lemma dacToRgb_table : NoDup (List.map dacToRgb (seqZ 0 512)).
Proof. apply (bool_decide_unpack _). vm_compute. exact I. Qed.

Lemma table_inj (f : Z -> string) (l : list Z) (x y : Z) :
  NoDup (List.map f l) -> In x l -> In y l -> f x = f y -> x = y.
Proof.
  induction l as [| z l IH]; intros Hnd Hx Hy Heq; [done |].
  simpl in Hnd. apply NoDup_cons in Hnd as [Hz Hnd].
  destruct Hx as [<- | Hx], Hy as [<- | Hy]; try done.
  - exfalso. apply Hz. rewrite Heq. apply list_elem_of_In. by apply in_map.
  - exfalso. apply Hz. rewrite <- Heq. apply list_elem_of_In. by apply in_map.
  - by apply IH.
Qed.

(** X20. Two values give the same colour string exactly when their low
    nine bits agree: the 512 DAC values have 512 different colours. *)
Theorem dacToRgb_injective v w :
  dacToRgb v = dacToRgb w <->
  Z.land (toInt32 v) 0x1FF = Z.land (toInt32 w) 0x1FF.
Proof.
  split.
  - intros Heq.
    rewrite <- (dacToRgb_mask v), <- (dacToRgb_mask w) in Heq.
    apply (table_inj dacToRgb (seqZ 0 512)); [apply dacToRgb_table | | | done];
      apply list_elem_of_In, elem_of_seqZ; rewrite mask_low9;
      pose proof (Z.mod_pos_bound v 512 eq_refl);
      pose proof (Z.mod_pos_bound w 512 eq_refl); lia.
  - intros Heq.
    rewrite <- (dacToRgb_mask v), <- (dacToRgb_mask w).
    by rewrite Heq.
Qed.

(** X21. Whatever is typed into the two fields, the width handed to
    [setPixelWidth] is at least 1 and the scale handed to
    [setPixelScale] lies between 1 and 32; a number that is already in
    range is passed on unchanged. *)
Theorem display_settings_clamped (parsed : option Z) :
  1 <= onWidthChange parsed /\
  1 <= onScaleChange parsed <= 32 /\
  (forall n, 1 <= n -> onWidthChange (Some n) = n) /\
  (forall n, 1 <= n <= 32 -> onScaleChange (Some n) = n).
Proof.
  unfold onWidthChange, onScaleChange. split; [lia |]. split; [lia |]. split.
  - intros n Hn. destruct n; simpl; lia.
  - intros n Hn. destruct n; simpl; lia.
Qed.

Lemma ceil_div_rows total width i :
  1 <= width -> 0 <= i < total -> i / width + 1 <= ceil_div total width.
Proof.
  intros Hw Hi. unfold ceil_div.
  pose proof (Z.div_mod i width ltac:(lia)) as Hdi.
  pose proof (Z.mod_pos_bound i width ltac:(lia)) as Hmi.
  pose proof (Z.div_mod total width ltac:(lia)) as Hdt.
  pose proof (Z.mod_pos_bound total width ltac:(lia)) as Hmt.
  destruct (Z.eqb_spec (total mod width) 0) as [H0 | H0]; nia.
Qed.

(** X22. With a width and a scale of at least 1, the rectangle filled
    for every pixel index below the number of pixels lies inside the
    canvas, and the rectangles of two different indices do not
    overlap. *)
Theorem pixelRect_in_canvas totalPixels pixelWidth pixelScale i j :
  1 <= pixelWidth -> 1 <= pixelScale ->
  0 <= i < totalPixels -> 0 <= j < totalPixels -> i <> j ->
  let '(x, y, rw, rh) := pixelRect i pixelWidth pixelScale in
  let '(x', y', _, _) := pixelRect j pixelWidth pixelScale in
  let '(cw, ch) := canvasSize totalPixels pixelWidth pixelScale in
  (0 <= x /\ x + rw <= cw /\ 0 <= y /\ y + rh <= ch) /\
  (x + rw <= x' \/ x' + rw <= x \/ y + rh <= y' \/ y' + rh <= y).
Proof.
  intros Hw Hs Hi Hj Hne. unfold pixelRect, canvasSize.
  pose proof (ceil_div_rows totalPixels pixelWidth i Hw Hi) as Hrows.
  pose proof (Z.div_mod i pixelWidth ltac:(lia)) as Hdi.
  pose proof (Z.mod_pos_bound i pixelWidth ltac:(lia)) as Hmi.
  pose proof (Z.div_mod j pixelWidth ltac:(lia)) as Hdj.
  pose proof (Z.mod_pos_bound j pixelWidth ltac:(lia)) as Hmj.
  assert (0 <= i / pixelWidth) as Hri by (apply Z.div_pos; lia).
  assert (0 <= j / pixelWidth) as Hrj by (apply Z.div_pos; lia).
  revert Hrows Hdi Hmi Hdj Hmj Hri Hrj.
  generalize (ceil_div totalPixels pixelWidth), (i / pixelWidth), (i mod pixelWidth),
    (j / pixelWidth), (j mod pixelWidth).
  intros rows ri ci rj cj Hrows Hdi Hmi Hdj Hmj Hri Hrj.
  split.
  - repeat split; nia.
  - destruct (Z.lt_trichotomy ci cj) as [Hc | [Hc | Hc]].
    + left. nia.
    + destruct (Z.lt_trichotomy ri rj) as [Hr | [Hr | Hr]].
      * right. right. left. nia.
      * exfalso. subst. lia.
      * right. right. right. nia.
    + right. left. nia.
Qed.

Lemma pixelRect_in_canvas_witness :
  let '(x, y, rw, rh) := pixelRect 5 4 12 in
  let '(x', y', _, _) := pixelRect 6 4 12 in
  let '(cw, ch) := canvasSize 7 4 12 in
  (0 <= x /\ x + rw <= cw /\ 0 <= y /\ y + rh <= ch) /\
  (x + rw <= x' \/ x' + rw <= x \/ y + rh <= y' \/ y' + rh <= y).
Proof.
  apply (pixelRect_in_canvas 7 4 12 5 6); lia.
Defined.

End VgaDisplayFacts.
